(** * JSON-to-graph loader: a shallow embedding of [gnn/json_graph_loader.py]
    and [gnn/data_loader.py].
    The loader walks a parsed JSON document with an explicit stack and issues
    [MERGE] statements (one per node, one per relationship) against a Neo4j
    session.  The statements are modelled as data ([intent]); the session is a
    state that records what was submitted, applies it to a store, and may
    raise.  The [returns] decorators ([future_safe], [safe]) are modelled by
    what they do to a raised exception: they turn it into a failure value. *)

From Stdlib Require Import List String Ascii ZArith Bool Arith Lia Permutation FinFun.
From Equations Require Import Equations.
Import ListNotations.

Open Scope string_scope.
Open Scope list_scope.

(* ===================================================================== *)
(** * The model *)
(* ===================================================================== *)

(* ===================================================================== *)
(** ** JSON values, as [json.loads] returns them *)
(* ===================================================================== *)

(** Python values that are neither [dict] nor [list].  A float is kept by its
    printed form: the loader never computes with it, it only passes it on. *)
Inductive prim : Type :=
| PNone
| PBool (b : bool)
| PInt (z : Z)
| PFloat (repr : string)
| PStr (s : string).

(** A [dict] keeps its items in insertion order, a [list] its elements. *)
#[local] Unset Elimination Schemes.
Inductive json : Type :=
| JPrim (p : prim)
| JList (elements : list json)
| JDict (items : list (string * json)).
#[local] Set Elimination Schemes.

Definition is_dict (val : json) : bool :=
  match val with JDict _ => true | _ => false end.

Definition is_list (val : json) : bool :=
  match val with JList _ => true | _ => false end.

Definition is_primitive (val : json) : bool :=
  negb (is_dict val || is_list val).

(** Number of values in a document, the document itself included. *)
Fixpoint json_size (v : json) : nat :=
  match v with
  | JPrim _ => 1
  | JList elements => S (list_sum (map json_size elements))
  | JDict items => S (list_sum (map (fun kv => json_size (snd kv)) items))
  end.

(** A Python [dict] holds each key once. *)
Fixpoint unique_keys (v : json) : Prop :=
  match v with
  | JPrim _ => True
  | JList elements =>
      (fix all (l : list json) : Prop :=
         match l with
         | [] => True
         | x :: l' => unique_keys x /\ all l'
         end) elements
  | JDict items =>
      NoDup (map fst items) /\
      (fix all (l : list (string * json)) : Prop :=
         match l with
         | [] => True
         | kv :: l' => unique_keys (snd kv) /\ all l'
         end) items
  end.

(* ===================================================================== *)
(** ** Property dictionaries, labels, Python idioms *)
(* ===================================================================== *)

(** [properties] of a node: a [dict] from property name to value, with its
    items in insertion order.  The loader builds all its dictionaries the
    same way ([name] or [index] first, then [value]), so that two of them
    are equal as dictionaries exactly when they are equal as lists. *)
Definition props : Type := list (string * prim).

(** [d[key] = value]: replaces the value in place when the key is there,
    appends the item otherwise. *)
Fixpoint dict_set (key : string) (value : prim) (d : props) : props :=
  match d with
  | [] => [(key, value)]
  | (k, x) :: d' =>
      if String.eqb k key then (k, value) :: d'
      else (k, x) :: dict_set key value d'
  end.

Definition upper (c : ascii) : ascii :=
  let n := nat_of_ascii c in
  if Nat.leb 97 n && Nat.leb n 122 then ascii_of_nat (n - 32) else c.

Definition lower (c : ascii) : ascii :=
  let n := nat_of_ascii c in
  if Nat.leb 65 n && Nat.leb n 90 then ascii_of_nat (n + 32) else c.

Fixpoint lowercase (s : string) : string :=
  match s with
  | EmptyString => EmptyString
  | String c s' => String (lower c) (lowercase s')
  end.

(** [str.capitalize()]: first character upper case, the others lower case
    (on ASCII letters; other characters are left as they are). *)
Definition capitalize (s : string) : string :=
  match s with
  | EmptyString => EmptyString
  | String c s' => String (upper c) (lowercase s')
  end.

(** [enumerate(l)], counting from [start]. *)
Fixpoint enumerate_from {A : Type} (start : nat) (l : list A) : list (nat * A) :=
  match l with
  | [] => []
  | x :: l' => (start, x) :: enumerate_from (S start) l'
  end.

Definition enumerate {A : Type} (l : list A) : list (nat * A) :=
  enumerate_from 0 l.

(** [x or default] on an optional string: [None] and the empty string are
    falsy. *)
Definition py_or (x : option string) (default : string) : string :=
  match x with
  | None => default
  | Some EmptyString => default
  | Some s => s
  end.

(** Truth value of a string. *)
Definition truthy (s : string) : bool :=
  match s with EmptyString => false | _ => true end.

(* ===================================================================== *)
(** ** Statements sent to the store, and the store *)
(* ===================================================================== *)

(** A node is known to the store by its label and its properties. *)
Definition node : Type := (string * props)%type.

(** An edge: start node, relationship type, end node. *)
Definition edge : Type := (node * string * node)%type.

(** The two write statements.  [NodeIntent l p] is
    [MERGE (n:l {p})]; [RelIntent fl fp tl tp t] is
    [MATCH (a:fl {fp}) MATCH (b:tl {tp}) MERGE (a)-[:t]->(b)]. *)
Inductive intent : Type :=
| NodeIntent (label : string) (properties : props)
| RelIntent (from_label : string) (from_properties : props)
            (to_label : string) (to_properties : props) (rel_type : string).

(** Calls on the graph-data-science catalog. *)
Inductive gds_call : Type :=
| GdsDrop (graph_name : string)
| GdsProject (graph_name : string).

Record store : Type := mkStore {
  nodes : list node;
  edges : list edge
}.

Definition empty_store : store := mkStore [] [].

Definition prim_eq_dec (x y : prim) : {x = y} + {x <> y}.
Proof.
  decide equality;
    [ apply Bool.bool_dec | apply Z.eq_dec | apply string_dec | apply string_dec ].
Defined.

Definition props_eq_dec (x y : props) : {x = y} + {x <> y}.
Proof.
  apply list_eq_dec. intros [k1 v1] [k2 v2].
  destruct (string_dec k1 k2); [ | right; congruence ].
  destruct (prim_eq_dec v1 v2); [ left | right ]; congruence.
Defined.

Definition node_eq_dec (x y : node) : {x = y} + {x <> y}.
Proof.
  destruct x as [l1 p1], y as [l2 p2].
  destruct (string_dec l1 l2); [ | right; congruence ].
  destruct (props_eq_dec p1 p2); [ left | right ]; congruence.
Defined.

Definition edge_eq_dec (x y : edge) : {x = y} + {x <> y}.
Proof.
  destruct x as [[a1 t1] b1], y as [[a2 t2] b2].
  destruct (node_eq_dec a1 a2); [ | right; congruence ].
  destruct (string_dec t1 t2); [ | right; congruence ].
  destruct (node_eq_dec b1 b2); [ left | right ]; congruence.
Defined.

Definition has_node (n : node) (s : store) : bool :=
  if in_dec node_eq_dec n (nodes s) then true else false.

Definition has_edge (e : edge) (s : store) : bool :=
  if in_dec edge_eq_dec e (edges s) then true else false.

(** Modelled from the spec: the store itself is not part of the repository.
    A node upsert matches a node with the given label and property set or
    creates it; a relationship upsert matches both end nodes by label and
    properties and matches or creates the edge between them.  When an end
    node is not found the [MATCH] yields no row and nothing is written. *)
Definition merge_node (n : node) (s : store) : store :=
  if has_node n s then s else mkStore (nodes s ++ [n]) (edges s).

Definition merge_edge (e : edge) (s : store) : store :=
  let '(a, _, b) := e in
  if has_node a s && has_node b s then
    if has_edge e s then s else mkStore (nodes s) (edges s ++ [e])
  else s.

Definition apply_intent (i : intent) (s : store) : store :=
  match i with
  | NodeIntent l p => merge_node (l, p) s
  | RelIntent fl fp tl tp t => merge_edge ((fl, fp), t, (tl, tp)) s
  end.

(** Replaying a sequence of intents in order. *)
Definition replay (l : list intent) (s : store) : store :=
  fold_left (fun acc i => apply_intent i acc) l s.

(* ===================================================================== *)
(** ** Coroutines, the session, [future_safe] *)
(* ===================================================================== *)

(** Exceptions the code can meet: a failed write or query on the session, a
    path that cannot be opened for reading, a file whose bytes are not text,
    a text that is not JSON. *)
Inductive exn : Type :=
| Neo4jError
| OSError
| UnicodeDecodeError
| JSONDecodeError.

(** The [logger.info] lines of [project_graph_in_gds]. *)
Inductive log_line : Type :=
| DroppedExisting (graph_name : string)
| DropFailed (graph_name : string)
| Projecting (graph_name : string)
| Projected (graph_name : string).

(** The points where a coroutine is suspended or acts on the outside. *)
Inductive call : Type :=
| WriteTransaction (i : intent)
| SessionRun (c : gds_call)
| FileRead
| LogInfo (m : log_line).

Inductive outcome (A : Type) : Type :=
| Returned (a : A)
| Raised (e : exn).
Arguments Returned {A} a.
Arguments Raised {A} e.

(** A coroutine: it returns, raises, or awaits a call and goes on with what
    the call returned or raised. *)
Inductive prog (A : Type) : Type :=
| Ret (a : A)
| Raise (e : exn)
| Await (c : call) (k : outcome unit -> prog A).
Arguments Ret {A} a.
Arguments Raise {A} e.
Arguments Await {A} c k.

Fixpoint bind {A B : Type} (m : prog A) (f : A -> prog B) : prog B :=
  match m with
  | Ret a => f a
  | Raise e => Raise e
  | Await c k => Await c (fun r => bind (k r) f)
  end.

(** [await c]: an exception of the call is raised in the caller. *)
Definition await (c : call) : prog unit :=
  Await c (fun r => match r with
                    | Returned a => Ret a
                    | Raised e => Raise e
                    end).

Declare Scope coroutine_scope.
Delimit Scope coroutine_scope with coroutine.
Notation "x <- c1 ;; c2" := (bind c1 (fun x => c2))
  (at level 61, c1 at next level, right associativity) : coroutine_scope.
Notation "c1 ;; c2" := (bind c1 (fun _ => c2))
  (at level 61, right associativity) : coroutine_scope.
Open Scope coroutine_scope.

(** The containers of [returns]: what awaiting a [FutureResult] gives. *)
Inductive io_result (A : Type) : Type :=
| IOSuccess (a : A)
| IOFailure (e : exn).
Arguments IOSuccess {A} a.
Arguments IOFailure {A} e.

(** [@future_safe]: the decorated coroutine never raises; an exception of
    its body becomes the value [IOFailure]. *)
Fixpoint future_safe {A : Type} (body : prog A) : prog (io_result A) :=
  match body with
  | Ret a => Ret (IOSuccess a)
  | Raise e => Ret (IOFailure e)
  | Await c k => Await c (fun r => future_safe (k r))
  end.

(** [try: body except: handler], with a bare [except]. *)
Fixpoint try_except {A : Type} (body : prog A) (handler : prog A) : prog A :=
  match body with
  | Ret a => Ret a
  | Raise _ => handler
  | Await c k => Await c (fun r => try_except (k r) handler)
  end.

(** What the program acts on: the store, the catalog of projected graphs,
    the statements submitted so far (in order), the lines logged, and for
    each coming call on the session whether it will raise ([true]); past the
    end of [faults] no call raises. *)
Record world : Type := mkWorld {
  db : store;
  catalog : list string;
  written : list intent;
  ran : list gds_call;
  logged : list log_line;
  faults : list bool
}.

(** A world with the given store and coming faults, nothing submitted yet. *)
Definition world_of (s : store) (fs : list bool) : world :=
  mkWorld s [] [] [] [] fs.

(** Modelled from the spec: the catalog of the analytics engine is not part
    of the repository.  A projection cannot be created under a name that is
    taken; dropping with [failIfMissing = false] removes the name when it is
    there. *)
Definition run_gds (c : gds_call) (cat : list string) : option (list string) :=
  match c with
  | GdsDrop name => Some (remove string_dec name cat)
  | GdsProject name =>
      if in_dec string_dec name cat then None else Some (name :: cat)
  end.

(** A call, carried out.  A call on the session is recorded when it is
    submitted; it raises when the next fault says so (or, for a catalog call,
    when the catalog refuses it) and takes effect otherwise. *)
Definition perform (c : call) (w : world) : outcome unit * world :=
  match c with
  | WriteTransaction i =>
      match faults w with
      | true :: fs =>
          (Raised Neo4jError,
           mkWorld (db w) (catalog w) (written w ++ [i]) (ran w) (logged w) fs)
      | fs =>
          (Returned tt,
           mkWorld (apply_intent i (db w)) (catalog w) (written w ++ [i])
                   (ran w) (logged w) (tl fs))
      end
  | SessionRun g =>
      match faults w with
      | true :: fs =>
          (Raised Neo4jError,
           mkWorld (db w) (catalog w) (written w) (ran w ++ [g]) (logged w) fs)
      | fs =>
          match run_gds g (catalog w) with
          | Some cat =>
              (Returned tt,
               mkWorld (db w) cat (written w) (ran w ++ [g]) (logged w) (tl fs))
          | None =>
              (Raised Neo4jError,
               mkWorld (db w) (catalog w) (written w) (ran w ++ [g]) (logged w)
                       (tl fs))
          end
      end
  | FileRead => (Returned tt, w)
  | LogInfo m =>
      (Returned tt,
       mkWorld (db w) (catalog w) (written w) (ran w) (logged w ++ [m])
               (faults w))
  end.

(** A coroutine run to its end with nothing else running. *)
Fixpoint run {A : Type} (m : prog A) (w : world) : outcome A * world :=
  match m with
  | Ret a => (Returned a, w)
  | Raise e => (Raised e, w)
  | Await c k => let (r, w') := perform c w in run (k r) w'
  end.

Definition create_node (label : string) (properties : props)
  : prog (io_result unit) :=
  future_safe (await (WriteTransaction (NodeIntent label properties))).

Definition create_relationship (from_label : string) (from_properties : props)
    (to_label : string) (to_properties : props) (rel_type : string)
  : prog (io_result unit) :=
  future_safe
    (await (WriteTransaction
              (RelIntent from_label from_properties to_label to_properties
                         rel_type))).

(* ===================================================================== *)
(** ** [process_json] *)
(* ===================================================================== *)

(** A stack entry: [(parent_label, parent_properties, rel_type, current_data)]. *)
Definition frame : Type := (string * props * option string * json)%type.

Fixpoint for_each {A : Type} (body : A -> prog unit) (l : list A) : prog unit :=
  match l with
  | [] => Ret tt
  | x :: l' => body x ;; for_each body l'
  end.

(** One turn of [for key, value in current_data.items()]: the two awaits. *)
Definition dict_item_awaits (parent_label : string) (parent_properties : props)
    (rel_type : option string) (kv : string * json) : prog unit :=
  let '(key, value) := kv in
  let node_label := capitalize key in
  let node_properties := [("name", PStr key)] in
  match value with
  | JPrim p =>
      let node_properties := dict_set "value" p node_properties in
      _ <- create_node node_label node_properties ;;
      _ <- create_relationship parent_label parent_properties
             node_label node_properties (py_or rel_type "HAS") ;;
      Ret tt
  | _ =>
      _ <- create_node node_label node_properties ;;
      _ <- create_relationship parent_label parent_properties
             node_label node_properties (py_or rel_type "HAS") ;;
      Ret tt
  end.

(** The same turn: what it appends to the stack.  The frames appended during
    an iteration are read by later iterations only, so the awaits and the
    appends of a turn are given side by side. *)
Definition dict_item_appends (kv : string * json) : list frame :=
  let '(key, value) := kv in
  let node_label := capitalize key in
  let node_properties := [("name", PStr key)] in
  if is_primitive value then []
  else [(node_label, node_properties, Some "HAS", value)].

(** One turn of [for idx, item in enumerate(current_data)]: the two awaits. *)
Definition list_item_awaits (parent_label : string) (parent_properties : props)
    (ix : nat * json) : prog unit :=
  let '(idx, item) := ix in
  let node_label := append parent_label "Item" in
  let node_properties := [("index", PInt (Z.of_nat idx))] in
  match item with
  | JPrim p =>
      let node_properties := dict_set "value" p node_properties in
      _ <- create_node node_label node_properties ;;
      _ <- create_relationship parent_label parent_properties
             node_label node_properties "HAS" ;;
      Ret tt
  | _ =>
      _ <- create_node node_label node_properties ;;
      _ <- create_relationship parent_label parent_properties
             node_label node_properties "HAS" ;;
      Ret tt
  end.

Definition list_item_appends (parent_label : string) (ix : nat * json)
  : list frame :=
  let '(idx, item) := ix in
  let node_label := append parent_label "Item" in
  let node_properties := [("index", PInt (Z.of_nat idx))] in
  if is_primitive item then []
  else [(node_label, node_properties, Some "HAS", item)].

(** The body of [while stack:] after the [pop]: what it awaits. *)
Definition frame_awaits (fr : frame) : prog unit :=
  let '(parent_label, parent_properties, rel_type, current_data) := fr in
  match current_data with
  | JDict items =>
      for_each (dict_item_awaits parent_label parent_properties rel_type) items
  | JList elements =>
      for_each (list_item_awaits parent_label parent_properties)
               (enumerate elements)
  | JPrim p =>
      if truthy parent_label then
        let parent_properties := dict_set "value" p parent_properties in
        _ <- create_node parent_label parent_properties ;;
        Ret tt
      else Ret tt
  end.

(** The same body: the frames it appends, in the order of the appends. *)
Definition frame_appends (fr : frame) : list frame :=
  let '(parent_label, _, _, current_data) := fr in
  match current_data with
  | JDict items => flat_map dict_item_appends items
  | JList elements =>
      flat_map (list_item_appends parent_label) (enumerate elements)
  | JPrim _ => []
  end.

Definition frame_weight (fr : frame) : nat := json_size (snd fr).

Definition stack_weight (stack : list frame) : nat :=
  list_sum (map frame_weight stack).

(** [while stack:].  The deque is used from its right end only; it is the
    list whose head is that end, so that an iteration turns
    [fr :: stack] into the frames it appended, last one first, over [stack].
    The loop ends because the data of the appended frames are parts of the
    data of the frame that was popped. *)
Equations? while_stack (stack : list frame) : prog unit
  by wf (stack_weight stack) lt :=
  while_stack [] := Ret tt;
  while_stack (fr :: stack) :=
    bind (frame_awaits fr)
         (fun _ => while_stack (rev (frame_appends fr) ++ stack)).
Proof.
  clear while_stack.
  destruct fr as [[[parent_label parent_properties] rel_type] current_data].
  unfold stack_weight. rewrite map_app, list_sum_app, map_rev.
  cbn [map list_sum frame_weight snd].
  assert (Hrev : forall l : list nat, list_sum (rev l) = list_sum l).
  { induction l as [| n l IH]; [ reflexivity | ].
    cbn [rev]. rewrite list_sum_app, IH. simpl. lia. }
  assert (Hcons : forall n (l : list nat), list_sum (n :: l) = n + list_sum l)
    by reflexivity.
  rewrite Hrev, Hcons. unfold frame_weight at 3. cbn [snd].
  enough (list_sum (map frame_weight
                        (frame_appends (parent_label, parent_properties,
                                        rel_type, current_data)))
          < json_size current_data) by lia.
  destruct current_data as [p | elements | items]; cbn [frame_appends json_size].
  - simpl. lia.
  - enough (H : forall start,
               list_sum (map frame_weight
                             (flat_map (list_item_appends parent_label)
                                       (enumerate_from start elements)))
               <= list_sum (map json_size elements))
      by (specialize (H 0); unfold enumerate; lia).
    induction elements as [| item elements IH]; intro start; [ simpl; lia | ].
    cbn [enumerate_from flat_map map list_sum].
    rewrite map_app, list_sum_app, Hcons. specialize (IH (S start)).
    assert (list_sum (map frame_weight
                          (list_item_appends parent_label (start, item)))
            <= json_size item).
    { unfold list_item_appends.
      destruct (is_primitive item); unfold frame_weight; simpl; lia. }
    lia.
  - enough (H : list_sum (map frame_weight (flat_map dict_item_appends items))
               <= list_sum (map (fun kv => json_size (snd kv)) items)) by lia.
    induction items as [| [key value] items IH]; [ simpl; lia | ].
    cbn [flat_map map list_sum snd]. rewrite map_app, list_sum_app, Hcons.
    assert (list_sum (map frame_weight (dict_item_appends (key, value)))
            <= json_size value).
    { unfold dict_item_appends.
      destruct (is_primitive value); unfold frame_weight; simpl; lia. }
    lia.
Qed.

Definition process_json (data : json) : prog (io_result unit) :=
  future_safe
    (let root_label := "Root" in
     let root_properties := [("name", PStr "root")] in
     _ <- create_node root_label root_properties ;;
     while_stack [(root_label, root_properties, None, data)]).

(** The statements [process_json] submits for a document, in order. *)
Definition emitted (data : json) : list intent :=
  written (snd (run (process_json data) (world_of empty_store []))).

(* ===================================================================== *)
(** ** [project_graph_in_gds] *)
(* ===================================================================== *)

Definition project_graph_in_gds (gds_graph_name : string)
  : prog (io_result unit) :=
  future_safe
    (try_except
       (await (SessionRun (GdsDrop gds_graph_name)) ;;
        await (LogInfo (DroppedExisting gds_graph_name)))
       (await (LogInfo (DropFailed gds_graph_name))) ;;
     await (LogInfo (Projecting gds_graph_name)) ;;
     await (SessionRun (GdsProject gds_graph_name)) ;;
     await (LogInfo (Projected gds_graph_name))).

(* ===================================================================== *)
(** ** Files: [read_file], [parse_json], [process_file], [process_directory] *)
(* ===================================================================== *)

(** What a directory holds under a name: a file whose bytes are the text
    [contents] in the encoding of the read, a file whose bytes are not text
    in that encoding, or a directory. *)
#[local] Unset Elimination Schemes.
Inductive fs_entry : Type :=
| RegularFile (contents : string)
| BinaryFile (bytes : list Byte.byte)
| Directory (entries : list (string * fs_entry)).
#[local] Set Elimination Schemes.

(** The [Result] container of [returns]. *)
Inductive result (A : Type) : Type :=
| Success (a : A)
| Failure (e : exn).
Arguments Success {A} a.
Arguments Failure {A} e.

(** Shell-style matching of a name: [*] stands for any run of characters,
    [?] for any one character, any other character for itself. *)
Fixpoint fnmatch (pattern name : string) {struct pattern} : bool :=
  match pattern with
  | EmptyString =>
      match name with EmptyString => true | String _ _ => false end
  | String c pattern' =>
      if Ascii.eqb c "*" then
        (fix star (name : string) : bool :=
           fnmatch pattern' name
           || match name with
              | EmptyString => false
              | String _ name' => star name'
              end) name
      else
        match name with
        | EmptyString => false
        | String d name' =>
            (Ascii.eqb c "?" || Ascii.eqb c d) && fnmatch pattern' name'
        end
  end.

(** [data_directory.glob(pattern)] for a pattern of one component: the
    entries of the directory itself whose name matches, in the order the
    directory lists them. *)
Definition glob (data_directory : list (string * fs_entry)) (pattern : string)
  : list (string * fs_entry) :=
  filter (fun ne => fnmatch pattern (fst ne)) data_directory.

(** [read_file]: opening a directory raises; a file is opened in text mode
    and read, which gives its text or raises when its bytes are not text. *)
Definition read_file (path : string * fs_entry) : prog (io_result string) :=
  future_safe
    (await FileRead ;;
     match snd path with
     | Directory _ => Raise OSError
     | RegularFile contents => await FileRead ;; Ret contents
     | BinaryFile _ => await FileRead ;; Raise UnicodeDecodeError
     end).

(** [FutureResult.bind_result] and [FutureResult.bind_awaitable]. *)
Definition bind_result {A B : Type} (f : A -> result B)
    (fr : prog (io_result A)) : prog (io_result B) :=
  r <- fr ;;
  Ret (match r with
       | IOSuccess a =>
           match f a with
           | Success b => IOSuccess b
           | Failure e => IOFailure e
           end
       | IOFailure e => IOFailure e
       end).

Definition bind_awaitable {A B : Type} (fr : prog (io_result A))
    (f : A -> prog B) : prog (io_result B) :=
  r <- fr ;;
  match r with
  | IOSuccess a => b <- f a ;; Ret (IOSuccess b)
  | IOFailure e => Ret (IOFailure e)
  end.

(** The tasks run to their end one after the other; the results come in the
    order of the tasks.  When a task raises, the whole raises. *)
Fixpoint in_turn {A : Type} (tasks : list (prog A)) : prog (list A) :=
  match tasks with
  | [] => Ret []
  | t :: tasks' => a <- t ;; rest <- in_turn tasks' ;; Ret (a :: rest)
  end.

(** The list [l] with [x] at position [i]; [l] itself past its end. *)
Fixpoint replace_nth {A : Type} (i : nat) (x : A) (l : list A) : list A :=
  match l, i with
  | [], _ => []
  | _ :: l', 0 => x :: l'
  | y :: l', S i' => y :: replace_nth i' x l'
  end.

(** [asyncio.gather] over the tasks: the event loop takes the tasks forward one
    await at a time, in the order [schedule] names them (a name that points
    at no task, or at a task that is done, is passed over); what is left
    then runs [in_turn].  The results come in the order of the tasks,
    whatever the order in which the tasks end. *)
Fixpoint gather {A : Type} (schedule : list nat) (tasks : list (prog A))
  : prog (list A) :=
  match schedule with
  | [] => in_turn tasks
  | i :: schedule' =>
      match nth_error tasks i with
      | Some (Await c k) =>
          Await c (fun r => gather schedule' (replace_nth i (k r) tasks))
      | _ => gather schedule' tasks
      end
  end.

Section Ingestion.
(** [json.loads]: the value a text stands for, [None] when it raises. *)
Variable json_loads : string -> option json.

Definition parse_json (data : string) : result json :=
  match json_loads data with
  | Some v => Success v
  | None => Failure JSONDecodeError
  end.

Definition json_parsing_pipeline (path : string * fs_entry)
  : prog (io_result json) :=
  bind_result parse_json (read_file path).

Definition process_file {B : Type} (file_path : string * fs_entry)
    (processor : json -> prog B) : prog (io_result B) :=
  result <- bind_awaitable (json_parsing_pipeline file_path) processor ;;
  Ret result.

Definition process_directory {B : Type} (schedule : list nat)
    (data_directory : list (string * fs_entry))
    (processor : json -> prog B) : prog (list (io_result B)) :=
  let json_files := glob data_directory "*.json" in
  let tasks :=
    map (fun file_path => process_file file_path processor) json_files in
  results <- gather schedule tasks ;;
  Ret results.
End Ingestion.

(* ===================================================================== *)
(** ** The document as a tree, and the order of the walk *)
(* ===================================================================== *)

(** A place in a document is reached from the top by keys and indices. *)
Inductive step : Type :=
| Key (k : string)
| Idx (i : nat).

Definition path : Type := list step.

(** The places strictly below the top of a document. *)
Fixpoint below (v : json) : list path :=
  match v with
  | JPrim _ => []
  | JList elements =>
      (fix each (idx : nat) (l : list json) {struct l} : list path :=
         match l with
         | [] => []
         | item :: l' =>
             ([Idx idx] :: map (cons (Idx idx)) (below item)) ++ each (S idx) l'
         end) 0 elements
  | JDict items =>
      (fix each (l : list (string * json)) {struct l} : list path :=
         match l with
         | [] => []
         | (key, value) :: l' =>
             ([Key key] :: map (cons (Key key)) (below value)) ++ each l'
         end) items
  end.

(** All places of a document; [[]] is its top.  [contains v p q]: the place
    [q] sits directly inside the place [p]. *)
Definition slots (v : json) : list path := [] :: below v.

Definition contains (v : json) (p q : path) : Prop :=
  In p (slots v) /\ In q (slots v) /\ exists s, q = p ++ [s].

(** The node made for a key of an object, and for a slot of an array. *)
Definition dict_child (kv : string * json) : node :=
  let '(key, value) := kv in
  let node_properties := [("name", PStr key)] in
  (capitalize key,
   match value with
   | JPrim p => dict_set "value" p node_properties
   | _ => node_properties
   end).

Definition list_child (parent_label : string) (ix : nat * json) : node :=
  let '(idx, item) := ix in
  let node_properties := [("index", PInt (Z.of_nat idx))] in
  (append parent_label "Item",
   match item with
   | JPrim p => dict_set "value" p node_properties
   | _ => node_properties
   end).

(** A place below the top, with the node of the place that contains it and
    its own node. *)
Record link : Type := mkLink {
  l_path : path;
  l_parent : node;
  l_child : node
}.

(** The links of the document [v] found at place [p] with node [parent], in
    the order of the walk: first the places directly inside [v], in document
    order, then what lies inside each of them, the last one first. *)
Fixpoint visit (p : path) (parent : node) (v : json) {struct v} : list link :=
  match v with
  | JPrim _ => []
  | JList elements =>
      map (fun ix => mkLink (p ++ [Idx (fst ix)]) parent
                            (list_child (fst parent) ix))
          (enumerate elements)
      ++ (fix later (idx : nat) (l : list json) {struct l} : list link :=
            match l with
            | [] => []
            | item :: l' =>
                later (S idx) l'
                ++ visit (p ++ [Idx idx]) (list_child (fst parent) (idx, item)) item
            end) 0 elements
  | JDict items =>
      map (fun kv => mkLink (p ++ [Key (fst kv)]) parent (dict_child kv)) items
      ++ (fix later (l : list (string * json)) {struct l} : list link :=
            match l with
            | [] => []
            | (key, value) :: l' =>
                later l'
                ++ visit (p ++ [Key key]) (dict_child (key, value)) value
            end) items
  end.

(** The two statements made for a link: the node, then the relationship. *)
Definition link_calls (l : link) : list intent :=
  [NodeIntent (fst (l_child l)) (snd (l_child l));
   RelIntent (fst (l_parent l)) (snd (l_parent l))
             (fst (l_child l)) (snd (l_child l)) "HAS"].

Definition calls_of_links (ls : list link) : list intent :=
  flat_map link_calls ls.

(** What one iteration of [while stack:] submits. *)
Definition frame_calls (fr : frame) : list intent :=
  let '(parent_label, parent_properties, rel_type, current_data) := fr in
  match current_data with
  | JDict items =>
      flat_map (fun kv =>
                  let c := dict_child kv in
                  [NodeIntent (fst c) (snd c);
                   RelIntent parent_label parent_properties (fst c) (snd c)
                             (py_or rel_type "HAS")]) items
  | JList elements =>
      flat_map (fun ix =>
                  let c := list_child parent_label ix in
                  [NodeIntent (fst c) (snd c);
                   RelIntent parent_label parent_properties (fst c) (snd c)
                             "HAS"]) (enumerate elements)
  | JPrim p =>
      if truthy parent_label
      then [NodeIntent parent_label (dict_set "value" p parent_properties)]
      else []
  end.

(** What the loop submits for a frame and all that it leads to. *)
Definition walk_calls (p : path) (fr : frame) : list intent :=
  let '(parent_label, parent_properties, rel_type, current_data) := fr in
  if is_primitive current_data then frame_calls fr
  else calls_of_links (visit p (parent_label, parent_properties) current_data).

(** A frame as the loop makes them: its relationship type is [None] (the
    first frame) or ["HAS"]. *)
Definition regular (fr : frame) : Prop :=
  let '(_, _, rel_type, _) := fr in py_or rel_type "HAS" = "HAS".

(** The world after a statement went through [write_transaction], and after
    a sequence of them did. *)
Definition submit (w : world) (i : intent) : world :=
  snd (perform (WriteTransaction i) w).

Definition submit_all (l : list intent) (w : world) : world :=
  fold_left submit l w.

Definition root_frame (data : json) : frame :=
  ("Root", [("name", PStr "root")], None, data).

Definition root_node : node := ("Root", [("name", PStr "root")]).

Definition root_intent : intent := NodeIntent "Root" [("name", PStr "root")].

(* ===================================================================== *)
(** ** Induction on documents *)
(* ===================================================================== *)

Section JsonInduction.
Variable P : json -> Prop.
Hypothesis HPrim : forall p, P (JPrim p).
Hypothesis HList : forall elements, Forall P elements -> P (JList elements).
Hypothesis HDict :
  forall items, Forall (fun kv => P (snd kv)) items -> P (JDict items).

Fixpoint json_ind (v : json) : P v :=
  match v with
  | JPrim p => HPrim p
  | JList elements =>
      HList elements ((fix all (l : list json) : Forall P l :=
                match l with
                | [] => Forall_nil _
                | x :: l' => Forall_cons x (json_ind x) (all l')
                end) elements)
  | JDict items =>
      HDict items ((fix all (l : list (string * json))
               : Forall (fun kv => P (snd kv)) l :=
                match l with
                | [] => Forall_nil _
                | kv :: l' =>
                    Forall_cons (P := fun kv => P (snd kv)) kv
                                (json_ind (snd kv)) (all l')
                end) items)
  end.
End JsonInduction.

(* ===================================================================== *)
(** ** Notions the properties are stated with *)
(* ===================================================================== *)

(** The frames an iteration appends, each with the place of its data. *)
Definition placed_appends (p : path) (fr : frame) : list (path * frame) :=
  let '(parent_label, _, _, current_data) := fr in
  match current_data with
  | JDict items =>
      flat_map (fun kv =>
                  map (fun f => (p ++ [Key (fst kv)], f)) (dict_item_appends kv))
               items
  | JList elements =>
      flat_map (fun ix =>
                  map (fun f => (p ++ [Idx (fst ix)], f))
                      (list_item_appends parent_label ix))
               (enumerate elements)
  | JPrim _ => []
  end.

(** [behaves P l t]: whatever the store answers to its statements, the
    coroutine [t] submits the statements [l], in this order, reads files at
    most besides, does not raise, and returns a value that satisfies [P]. *)
Inductive behaves {A : Type} (P : A -> Prop) : list intent -> prog A -> Prop :=
| behaves_ret (a : A) : P a -> behaves P [] (Ret a)
| behaves_write (i : intent) (l : list intent) (k : outcome unit -> prog A) :
    (forall r, behaves P l (k r)) ->
    behaves P (i :: l) (Await (WriteTransaction i) k)
| behaves_read (l : list intent) (k : outcome unit -> prog A) :
    behaves P l (k (Returned tt)) ->
    behaves P l (Await FileRead k).

(** [merges ls l]: [l] interleaves the lists [ls], each kept in its order. *)
Inductive merges {A : Type} : list (list A) -> list A -> Prop :=
| merges_done (ls : list (list A)) :
    Forall (fun l => l = []) ls -> merges ls []
| merges_take (i : nat) (x : A) (l : list A) (ls : list (list A))
              (m : list A) :
    nth_error ls i = Some (x :: l) ->
    merges (replace_nth i l ls) m ->
    merges ls (x :: m).

Definition any {A : Type} (_ : A) : Prop := True.

(** [each_after ok seen l]: going through [l] after [seen], each element is
    [ok] with respect to what came before it. *)
Fixpoint each_after {A : Type} (ok : list A -> A -> Prop) (seen l : list A)
  : Prop :=
  match l with
  | [] => True
  | x :: l' => ok seen x /\ each_after ok (seen ++ [x]) l'
  end.

(** A relationship is in order when the statements of both its end nodes
    came before it. *)
Definition ends_before (seen : list intent) (i : intent) : Prop :=
  match i with
  | NodeIntent _ _ => True
  | RelIntent fl fp tl tp _ =>
      In (NodeIntent fl fp) seen /\ In (NodeIntent tl tp) seen
  end.

Definition known (seen l : list intent) : Prop := each_after ends_before seen l.

(** A statement whose node, or whose edge and end nodes, are in the store
    already leaves the store as it is. *)
Definition settles (s : store) (i : intent) : Prop :=
  match i with
  | NodeIntent lb pr => In (lb, pr) (nodes s)
  | RelIntent fl fp tl tp t =>
      In (fl, fp) (nodes s) /\ In (tl, tp) (nodes s)
      /\ In ((fl, fp), t, (tl, tp)) (edges s)
  end.

(** The second Root statement, made when the document is not a container. *)
Definition reemitted_root (data : json) : list intent :=
  match data with
  | JPrim _ => frame_calls (root_frame data)
  | _ => []
  end.

(** A link is in its place when the place that contains it is the starting
    place [p], with node [parent], or the place of a link seen before, whose
    node is then the parent. *)
Definition inside (p : path) (parent : node) (seen : list link) (lk : link)
  : Prop :=
  (exists s, l_path lk = p ++ [s] /\ l_parent lk = parent)
  \/ (exists lk' s, In lk' seen /\ l_path lk = l_path lk' ++ [s]
                    /\ l_parent lk = l_child lk').

(** C8 as the specification words it: a node statement other than the first
    one has before it a relationship statement that ends at its node. *)
Definition relationship_precedes_node (data : json) : Prop :=
  forall pre lb pr post,
    emitted data = pre ++ NodeIntent lb pr :: post ->
    pre <> [] ->
    exists fl fp t, In (RelIntent fl fp lb pr t) pre.

(** The store that a replay of the statements of a document leaves, starting
    from the empty store. *)
Definition graph_of (data : json) : store := replay (emitted data) empty_store.

(** The nodes named by the node statements of a sequence, in order. *)
Definition node_intents (l : list intent) : list node :=
  flat_map (fun i => match i with
                     | NodeIntent lb pr => [(lb, pr)]
                     | RelIntent _ _ _ _ _ => []
                     end) l.

(** [isomorphic data g]: the places of [data] and the nodes of [g] correspond
    one to one, the top to the Root node, and a place sits directly inside
    another exactly when a ["HAS"] edge joins their nodes; [g] has no other
    edge. *)
Definition isomorphic (data : json) (g : store) : Prop :=
  exists f : path -> node,
    (forall p q, In p (slots data) -> In q (slots data) -> f p = f q -> p = q)
    /\ (forall n, In n (nodes g) <-> exists p, In p (slots data) /\ f p = n)
    /\ f [] = root_node
    /\ (forall p q, contains data p q -> In (f p, "HAS", f q) (edges g))
    /\ (forall e, In e (edges g) ->
                  exists p q, contains data p q /\ e = (f p, "HAS", f q)).

Definition step_eq_dec (x y : step) : {x = y} + {x <> y}.
Proof.
  decide equality; [ apply string_dec | apply Nat.eq_dec ].
Defined.

Definition path_eq_dec (x y : path) : {x = y} + {x <> y} :=
  list_eq_dec step_eq_dec x y.

(** The node made for a place: that of its link, the Root node for the top. *)
Definition node_at (data : json) (q : path) : node :=
  match find (fun lk => if path_eq_dec (l_path lk) q then true else false)
             (visit [] root_node data) with
  | Some lk => l_child lk
  | None => root_node
  end.

(** [interleaves P ls t]: the coroutine [t] submits the statements of the
    lists [ls], each list in its own order, in some order overall, does not
    raise, and returns a value that satisfies [P]. *)
Inductive interleaves {A : Type} (P : A -> Prop)
  : list (list intent) -> prog A -> Prop :=
| interleaves_ret (a : A) (ls : list (list intent)) :
    P a -> Forall (fun l => l = []) ls -> interleaves P ls (Ret a)
| interleaves_write (i : nat) (x : intent) (l : list intent)
                    (ls : list (list intent)) (k : outcome unit -> prog A) :
    nth_error ls i = Some (x :: l) ->
    (forall r, interleaves P (replace_nth i l ls) (k r)) ->
    interleaves P ls (Await (WriteTransaction x) k)
| interleaves_read (ls : list (list intent)) (k : outcome unit -> prog A) :
    interleaves P ls (k (Returned tt)) ->
    interleaves P ls (Await FileRead k).

(** What [process_file] returns for an entry, with [process_json] as the
    processor, and the statements it submits. *)
Definition file_result (json_loads : string -> option json) (entry : fs_entry)
  : io_result (io_result unit) :=
  match entry with
  | Directory _ => IOFailure OSError
  | BinaryFile _ => IOFailure UnicodeDecodeError
  | RegularFile contents =>
      match json_loads contents with
      | None => IOFailure JSONDecodeError
      | Some _ => IOSuccess (IOSuccess tt)
      end
  end.

Definition file_script (json_loads : string -> option json) (entry : fs_entry)
  : list intent :=
  match entry with
  | Directory _ => []
  | BinaryFile _ => []
  | RegularFile contents =>
      match json_loads contents with
      | None => []
      | Some v => emitted v
      end
  end.

(** What is asked of each task: a result and the statements it submits. *)
Definition meets {A : Type} (spec : A * list intent) (t : prog A) : Prop :=
  behaves (eq (fst spec)) (snd spec) t.

(** A pattern without wildcards. *)
Fixpoint plain (pattern : string) : bool :=
  match pattern with
  | EmptyString => true
  | String c pattern' =>
      negb (Ascii.eqb c "*") && negb (Ascii.eqb c "?") && plain pattern'
  end.

(* ===================================================================== *)
(** ** The parameters of the statements *)
(* ===================================================================== *)

(** [d.get(key)]. *)
Fixpoint dict_get (key : string) (d : props) : option prim :=
  match d with
  | [] => None
  | (k, x) :: d' => if String.eqb k key then Some x else dict_get key d'
  end.

(** [d.update(items)], and the dictionary a comprehension builds from the
    items it yields: a key yielded again takes the later value. *)
Definition dict_update (d : props) (items : list (string * prim)) : props :=
  fold_left (fun acc kv => dict_set (fst kv) (snd kv) acc) items d.

Definition dict_of (items : list (string * prim)) : props :=
  dict_update [] items.

(** [create_relationship]: the parameters that travel beside the text of
    the statement, named after the property keys. *)
Definition relationship_params (from_properties to_properties : props)
  : props :=
  let params :=
    dict_of (map (fun kv => (append (fst kv) "_from", snd kv))
                 from_properties) in
  dict_update params
    (map (fun kv => (append (fst kv) "_to", snd kv)) to_properties).

(* ===================================================================== *)
(** ** Places of a document, labels, processors that raise *)
(* ===================================================================== *)

(** [at_place v q sub]: following the path [q] from the top of [v] leads to
    the value [sub]. *)
Inductive at_place : json -> path -> json -> Prop :=
| at_top (v : json) : at_place v [] v
| at_key (items : list (string * json)) (key : string) (value : json)
         (q : path) (sub : json) :
    In (key, value) items -> at_place value q sub ->
    at_place (JDict items) (Key key :: q) sub
| at_index (elements : list json) (idx : nat) (item : json) (q : path)
           (sub : json) :
    nth_error elements idx = Some item -> at_place item q sub ->
    at_place (JList elements) (Idx idx :: q) sub.

(** The label the loader gives to the node of a place reached by a path,
    starting from the label of the place the path starts at: a key gives its
    capitalized form, an index adds ["Item"] to the label so far. *)
Definition label_after (label : string) (q : path) : string :=
  fold_left (fun lbl s => match s with
                          | Key key => capitalize key
                          | Idx _ => append lbl "Item"
                          end) q label.

(** The properties the loader gives to the node of a place, from the last
    step of its path and the value found there. *)
Definition properties_of (s : step) (sub : json) : props :=
  let base := match s with
              | Key key => [("name", PStr key)]
              | Idx idx => [("index", PInt (Z.of_nat idx))]
              end in
  match sub with
  | JPrim p => base ++ [("value", p)]
  | _ => base
  end.

(** The node of the container that a path leads to: the starting node for
    the empty path, otherwise the node of a place whose value is not a
    primitive. *)
Definition container_node (top : node) (q : path) : node :=
  match rev q with
  | [] => top
  | s :: _ => (label_after (fst top) q, properties_of s (JDict []))
  end.

(** [never_but e t]: whatever the session answers to its calls, the
    coroutine [t] raises no exception other than [e].  [dooms e t]: whatever
    the session answers, [t] ends by raising [e].  (The call that reads a
    file returns: what cannot be opened or is not text is an entry of its
    own kind, and [read_file] raises for it after the call.) *)
Inductive never_but {A : Type} (e : exn) : prog A -> Prop :=
| never_but_ret (a : A) : never_but e (Ret a)
| never_but_raise : never_but e (Raise e)
| never_but_read (k : outcome unit -> prog A) :
    never_but e (k (Returned tt)) -> never_but e (Await FileRead k)
| never_but_await (c : call) (k : outcome unit -> prog A) :
    (forall r, never_but e (k r)) -> never_but e (Await c k).

Inductive dooms {A : Type} (e : exn) : prog A -> Prop :=
| dooms_raise : dooms e (Raise e)
| dooms_read (k : outcome unit -> prog A) :
    dooms e (k (Returned tt)) -> dooms e (Await FileRead k)
| dooms_await (c : call) (k : outcome unit -> prog A) :
    (forall r, dooms e (k r)) -> dooms e (Await c k).

(** Two values give the same [value] property, or both give none. *)
Definition same_content (a b : json) : Prop :=
  match a, b with
  | JPrim x, JPrim y => x = y
  | JPrim _, _ => False
  | _, JPrim _ => False
  | _, _ => True
  end.

(** One store holds all the nodes and edges of the other. *)
Definition subgraph (s1 s2 : store) : Prop :=
  incl (nodes s1) (nodes s2) /\ incl (edges s1) (edges s2).

(** Two stores that hold the same nodes and the same edges. *)
Definition same_graph (s1 s2 : store) : Prop :=
  (forall n, In n (nodes s1) <-> In n (nodes s2))
  /\ (forall e, In e (edges s1) <-> In e (edges s2)).

(* ===================================================================== *)
(** * Properties *)
(* ===================================================================== *)

(* ===================================================================== *)
(** ** The walk on small documents *)
(* ===================================================================== *)

Example primitive_folding :
  emitted (JDict [("a", JPrim (PInt 1));
                  ("b", JList [JPrim (PInt 2); JPrim (PInt 3)])])
  = [NodeIntent "Root" [("name", PStr "root")];
     NodeIntent "A" [("name", PStr "a"); ("value", PInt 1)];
     RelIntent "Root" [("name", PStr "root")]
               "A" [("name", PStr "a"); ("value", PInt 1)] "HAS";
     NodeIntent "B" [("name", PStr "b")];
     RelIntent "Root" [("name", PStr "root")] "B" [("name", PStr "b")] "HAS";
     NodeIntent "BItem" [("index", PInt 0); ("value", PInt 2)];
     RelIntent "B" [("name", PStr "b")]
               "BItem" [("index", PInt 0); ("value", PInt 2)] "HAS";
     NodeIntent "BItem" [("index", PInt 1); ("value", PInt 3)];
     RelIntent "B" [("name", PStr "b")]
               "BItem" [("index", PInt 1); ("value", PInt 3)] "HAS"].
Proof. reflexivity. Qed.

Example empty_container :
  emitted (JDict [("a", JDict [])])
  = [NodeIntent "Root" [("name", PStr "root")];
     NodeIntent "A" [("name", PStr "a")];
     RelIntent "Root" [("name", PStr "root")] "A" [("name", PStr "a")] "HAS"].
Proof. reflexivity. Qed.

Example empty_document :
  emitted (JDict []) = [NodeIntent "Root" [("name", PStr "root")]].
Proof. reflexivity. Qed.

(** The containers found in an object are walked last one first. *)
Example last_container_first :
  emitted (JDict [("a", JDict [("x", JPrim (PInt 1))]);
                  ("b", JDict [("y", JPrim (PInt 2))])])
  = [NodeIntent "Root" [("name", PStr "root")];
     NodeIntent "A" [("name", PStr "a")];
     RelIntent "Root" [("name", PStr "root")] "A" [("name", PStr "a")] "HAS";
     NodeIntent "B" [("name", PStr "b")];
     RelIntent "Root" [("name", PStr "root")] "B" [("name", PStr "b")] "HAS";
     NodeIntent "Y" [("name", PStr "y"); ("value", PInt 2)];
     RelIntent "B" [("name", PStr "b")]
               "Y" [("name", PStr "y"); ("value", PInt 2)] "HAS";
     NodeIntent "X" [("name", PStr "x"); ("value", PInt 1)];
     RelIntent "A" [("name", PStr "a")]
               "X" [("name", PStr "x"); ("value", PInt 1)] "HAS"].
Proof. reflexivity. Qed.

Example capitalize_lowers_the_rest : capitalize "fooBar" = "Foobar".
Proof. reflexivity. Qed.

(* ===================================================================== *)
(** ** Coroutines: what they submit *)
(* ===================================================================== *)

Lemma behaves_weaken {A : Type} (P Q : A -> Prop) (l : list intent)
    (t : prog A) :
  (forall a, P a -> Q a) -> behaves P l t -> behaves Q l t.
Proof.
  intros HPQ H. induction H as [a Ha | i l k _ IH | l k _ IH].
  - apply behaves_ret. auto.
  - apply behaves_write. exact IH.
  - apply behaves_read. exact IH.
Qed.

Lemma behaves_bind {A B : Type} (P : A -> Prop) (Q : B -> Prop)
    (l l' : list intent) (m : prog A) (f : A -> prog B) :
  behaves P l m ->
  (forall a, P a -> behaves Q l' (f a)) ->
  behaves Q (l ++ l') (bind m f).
Proof.
  intros Hm Hf. induction Hm as [a Ha | i l k _ IH | l k _ IH]; simpl.
  - apply Hf. exact Ha.
  - apply behaves_write. exact IH.
  - apply behaves_read. exact IH.
Qed.

Lemma behaves_future_safe {A : Type} (P : A -> Prop) (l : list intent)
    (m : prog A) :
  behaves P l m ->
  behaves (fun r => exists a, r = IOSuccess a /\ P a) l (future_safe m).
Proof.
  intro Hm. induction Hm as [a Ha | i l k _ IH | l k _ IH]; simpl.
  - apply behaves_ret. exists a. split; [ reflexivity | exact Ha ].
  - apply behaves_write. exact IH.
  - apply behaves_read. exact IH.
Qed.

Lemma behaves_create_node (label : string) (properties : props) :
  behaves any [NodeIntent label properties] (create_node label properties).
Proof.
  unfold create_node, await. simpl. apply behaves_write.
  intros [a | e]; simpl; apply behaves_ret; exact I.
Qed.

Lemma behaves_create_relationship (fl : string) (fp : props) (tl : string)
    (tp : props) (t : string) :
  behaves any [RelIntent fl fp tl tp t] (create_relationship fl fp tl tp t).
Proof.
  unfold create_relationship, await. simpl. apply behaves_write.
  intros [a | e]; simpl; apply behaves_ret; exact I.
Qed.

Lemma behaves_for_each {A : Type} (body : A -> prog unit)
    (calls : A -> list intent) (l : list A) :
  (forall x, behaves any (calls x) (body x)) ->
  behaves any (flat_map calls l) (for_each body l).
Proof.
  intro Hbody. induction l as [| x l IH]; simpl.
  - apply behaves_ret. exact I.
  - apply behaves_bind with (P := any); [ apply Hbody | intros _ _; exact IH ].
Qed.

(** One node and its relationship: the two awaits of a loop turn. *)
Lemma behaves_pair (pl : string) (pp : props) (c : node) (t : string) :
  behaves any
    [NodeIntent (fst c) (snd c); RelIntent pl pp (fst c) (snd c) t]
    (_ <- create_node (fst c) (snd c) ;;
     _ <- create_relationship pl pp (fst c) (snd c) t ;;
     Ret tt).
Proof.
  change [NodeIntent (fst c) (snd c); RelIntent pl pp (fst c) (snd c) t]
    with ([NodeIntent (fst c) (snd c)]
          ++ [RelIntent pl pp (fst c) (snd c) t] ++ []).
  apply behaves_bind with (P := any); [ apply behaves_create_node | ].
  intros _ _.
  apply behaves_bind with (P := any); [ apply behaves_create_relationship | ].
  intros _ _. apply behaves_ret. exact I.
Qed.

Lemma behaves_dict_item (pl : string) (pp : props) (rt : option string)
    (kv : string * json) :
  behaves any
    (let c := dict_child kv in
     [NodeIntent (fst c) (snd c);
      RelIntent pl pp (fst c) (snd c) (py_or rt "HAS")])
    (dict_item_awaits pl pp rt kv).
Proof.
  destruct kv as [key value].
  destruct value as [p | elements | items];
    match goal with
    | |- context [dict_item_awaits _ _ _ (_, ?v)] =>
        exact (behaves_pair pl pp (dict_child (key, v)) (py_or rt "HAS"))
    end.
Qed.

Lemma behaves_list_item (pl : string) (pp : props) (ix : nat * json) :
  behaves any
    (let c := list_child pl ix in
     [NodeIntent (fst c) (snd c); RelIntent pl pp (fst c) (snd c) "HAS"])
    (list_item_awaits pl pp ix).
Proof.
  destruct ix as [idx item].
  destruct item as [p | elements | items];
    match goal with
    | |- context [list_item_awaits _ _ (_, ?v)] =>
        exact (behaves_pair pl pp (list_child pl (idx, v)) "HAS")
    end.
Qed.

Lemma behaves_frame_awaits (fr : frame) :
  behaves any (frame_calls fr) (frame_awaits fr).
Proof.
  destruct fr as [[[pl pp] rt] [p | elements | items]];
    unfold frame_calls, frame_awaits.
  - destruct (truthy pl); [ | apply behaves_ret; exact I ].
    change [NodeIntent pl (dict_set "value" p pp)]
      with ([NodeIntent pl (dict_set "value" p pp)] ++ []).
    apply behaves_bind with (P := any); [ apply behaves_create_node | ].
    intros _ _. apply behaves_ret. exact I.
  - apply behaves_for_each. intro ix. apply behaves_list_item.
  - apply behaves_for_each. intro kv. apply behaves_dict_item.
Qed.

(* ===================================================================== *)
(** ** The walk, unfolded *)
(* ===================================================================== *)

Lemma flat_map_flat_map {A B C : Type} (g : B -> list C) (h : A -> list B)
    (l : list A) :
  flat_map g (flat_map h l) = flat_map (fun x => flat_map g (h x)) l.
Proof.
  induction l as [| x l IH]; [ reflexivity | ].
  simpl. rewrite flat_map_app, IH. reflexivity.
Qed.

Lemma flat_map_map {A B C : Type} (g : B -> list C) (h : A -> B) (l : list A) :
  flat_map g (map h l) = flat_map (fun x => g (h x)) l.
Proof.
  induction l as [| x l IH]; [ reflexivity | ]. simpl. rewrite IH. reflexivity.
Qed.

Lemma rev_short {A : Type} (l : list A) : List.length l <= 1 -> rev l = l.
Proof.
  destruct l as [| x [| y l]]; simpl; intro H; try reflexivity. lia.
Qed.

Lemma rev_flat_map_short {A B : Type} (h : A -> list B) (l : list A) :
  (forall x, List.length (h x) <= 1) ->
  rev (flat_map h l) = flat_map h (rev l).
Proof.
  intro Hshort. induction l as [| x l IH]; [ reflexivity | ].
  simpl. rewrite rev_app_distr, flat_map_app, IH. simpl.
  rewrite app_nil_r, (rev_short _ (Hshort x)). reflexivity.
Qed.

Lemma visit_dict (p : path) (parent : node) (items : list (string * json)) :
  visit p parent (JDict items) =
  map (fun kv => mkLink (p ++ [Key (fst kv)]) parent (dict_child kv)) items
  ++ flat_map (fun kv => visit (p ++ [Key (fst kv)]) (dict_child kv) (snd kv))
              (rev items).
Proof.
  cbn [visit]. f_equal.
  induction items as [| [key value] items IH]; [ reflexivity | ].
  rewrite IH. simpl rev. rewrite flat_map_app. simpl.
  rewrite app_nil_r. reflexivity.
Qed.

Lemma visit_list (p : path) (parent : node) (elements : list json) :
  visit p parent (JList elements) =
  map (fun ix => mkLink (p ++ [Idx (fst ix)]) parent
                        (list_child (fst parent) ix))
      (enumerate elements)
  ++ flat_map (fun ix => visit (p ++ [Idx (fst ix)])
                               (list_child (fst parent) ix) (snd ix))
              (rev (enumerate elements)).
Proof.
  cbn [visit]. f_equal. unfold enumerate. generalize 0.
  induction elements as [| item elements IH]; intro start; [ reflexivity | ].
  rewrite IH. simpl rev. rewrite flat_map_app. simpl.
  rewrite app_nil_r. reflexivity.
Qed.

Lemma below_dict (items : list (string * json)) :
  below (JDict items) =
  flat_map (fun kv => [Key (fst kv)] :: map (cons (Key (fst kv))) (below (snd kv)))
           items.
Proof.
  cbn [below].
  induction items as [| [key value] items IH]; [ reflexivity | ].
  rewrite IH. reflexivity.
Qed.

Lemma below_list (elements : list json) :
  below (JList elements) =
  flat_map (fun ix => [Idx (fst ix)] :: map (cons (Idx (fst ix))) (below (snd ix)))
           (enumerate elements).
Proof.
  cbn [below]. unfold enumerate. generalize 0.
  induction elements as [| item elements IH]; intro start; [ reflexivity | ].
  rewrite IH. reflexivity.
Qed.

Lemma map_snd_flat_map_tag {A B C : Type} (q : A -> C) (h : A -> list B)
    (l : list A) :
  map snd (flat_map (fun x => map (fun f => (q x, f)) (h x)) l) = flat_map h l.
Proof.
  induction l as [| x l IH]; [ reflexivity | ].
  cbn [flat_map]. rewrite map_app, IH, map_map. cbn [snd].
  rewrite map_id. reflexivity.
Qed.

Lemma placed_appends_snd (p : path) (fr : frame) :
  map snd (placed_appends p fr) = frame_appends fr.
Proof.
  destruct fr as [[[pl pp] rt] [x | elements | items]];
    unfold placed_appends, frame_appends;
    [ reflexivity | apply map_snd_flat_map_tag | apply map_snd_flat_map_tag ].
Qed.

Lemma dict_item_appends_short (kv : string * json) :
  List.length (dict_item_appends kv) <= 1.
Proof.
  destruct kv as [key value]. unfold dict_item_appends.
  destruct (is_primitive value); simpl; lia.
Qed.

Lemma list_item_appends_short (label : string) (ix : nat * json) :
  List.length (list_item_appends label ix) <= 1.
Proof.
  destruct ix as [idx item]. unfold list_item_appends.
  destruct (is_primitive item); simpl; lia.
Qed.

Lemma frame_appends_regular (fr : frame) : Forall regular (frame_appends fr).
Proof.
  destruct fr as [[[pl pp] rt] [x | elements | items]]; simpl.
  - constructor.
  - apply Forall_flat_map. apply Forall_forall. intros [idx item] _.
    unfold list_item_appends. destruct (is_primitive item); repeat constructor.
  - apply Forall_flat_map. apply Forall_forall. intros [key value] _.
    unfold dict_item_appends. destruct (is_primitive value); repeat constructor.
Qed.

(** What a frame leads to: its own statements, then those of the frames it
    appended, the last one first. *)
Lemma walk_calls_unfold (p : path) (fr : frame) :
  regular fr ->
  walk_calls p fr =
  frame_calls fr
  ++ flat_map (fun t => walk_calls (fst t) (snd t)) (rev (placed_appends p fr)).
Proof.
  destruct fr as [[[pl pp] rt] [x | elements | items]]; intro Hreg.
  - simpl. rewrite app_nil_r. reflexivity.
  - unfold walk_calls, calls_of_links. cbn [is_primitive is_dict is_list orb negb].
    rewrite visit_list, flat_map_app. f_equal.
    + unfold frame_calls. rewrite flat_map_map. reflexivity.
    + unfold placed_appends.
      rewrite rev_flat_map_short
        by (intro ix; rewrite length_map; apply list_item_appends_short).
      rewrite !flat_map_flat_map. apply flat_map_ext. intros [idx item].
      destruct item as [y | l | l]; simpl; rewrite ?app_nil_r; reflexivity.
  - unfold walk_calls, calls_of_links. cbn [is_primitive is_dict is_list orb negb].
    rewrite visit_dict, flat_map_app. f_equal.
    + unfold frame_calls. rewrite flat_map_map.
      unfold regular in Hreg. rewrite Hreg. reflexivity.
    + unfold placed_appends.
      rewrite rev_flat_map_short
        by (intro kv; rewrite length_map; apply dict_item_appends_short).
      rewrite !flat_map_flat_map. apply flat_map_ext. intros [key value].
      destruct value as [y | l | l]; simpl; rewrite ?app_nil_r; reflexivity.
Qed.

(** The loop submits, for each frame of its stack from the top down, what
    that frame leads to; it ends without raising, whatever the store
    answers. *)
Lemma while_stack_behaves (stack : list frame) :
  forall placed : list (path * frame),
    map snd placed = stack ->
    Forall regular stack ->
    behaves any (flat_map (fun t => walk_calls (fst t) (snd t)) placed)
            (while_stack stack).
Proof.
  funelim (while_stack stack); intros placed Hplaced Hreg.
  - destruct placed; [ | discriminate ]. apply behaves_ret. exact I.
  - destruct placed as [| [p fr'] placed]; [ discriminate | ].
    cbn [map snd] in Hplaced. injection Hplaced as -> Hplaced.
    inversion Hreg as [| ? ? Hfr Hrest]; subst.
    cbn [flat_map fst snd]. rewrite (walk_calls_unfold p fr Hfr), <- app_assoc.
    apply behaves_bind with (P := any); [ apply behaves_frame_awaits | ].
    intros u _. rewrite <- flat_map_app.
    apply (H u).
    + rewrite map_app, map_rev, placed_appends_snd. reflexivity.
    + apply Forall_app. split; [ | exact Hrest ].
      apply Forall_rev. apply frame_appends_regular.
Qed.

Lemma process_json_behaves (data : json) :
  behaves (fun r => r = IOSuccess tt)
          (root_intent :: walk_calls [] (root_frame data))
          (process_json data).
Proof.
  unfold process_json.
  apply behaves_weaken
    with (P := fun r : io_result unit => exists a, r = IOSuccess a /\ any a).
  { intros r [[] [-> _]]. reflexivity. }
  apply behaves_future_safe.
  change (root_intent :: walk_calls [] (root_frame data))
    with ([root_intent] ++ walk_calls [] (root_frame data)).
  apply behaves_bind with (P := any); [ apply behaves_create_node | ].
  intros _ _.
  pose proof (while_stack_behaves [root_frame data]
                                  [([], root_frame data)]) as H.
  cbn [map snd flat_map fst] in H. rewrite app_nil_r in H.
  apply H; [ reflexivity | repeat constructor ].
Qed.

(** Run alone, a coroutine that [behaves] leaves the world its statements
    make, and returns. *)
Lemma behaves_run {A : Type} (P : A -> Prop) (l : list intent) (t : prog A) :
  behaves P l t ->
  forall w, exists a, P a /\ run t w = (Returned a, submit_all l w).
Proof.
  intro H. induction H as [a Ha | i l k _ IH | l k _ IH]; intro w.
  - exists a. split; [ exact Ha | reflexivity ].
  - cbn [run].
    change (submit_all (i :: l) w)
      with (submit_all l (snd (perform (WriteTransaction i) w))).
    destruct (perform (WriteTransaction i) w) as [r w'].
    cbn [snd]. apply IH.
  - cbn [run perform]. apply IH.
Qed.

Lemma run_process_json (data : json) (w : world) :
  run (process_json data) w =
  (Returned (IOSuccess tt),
   submit_all (root_intent :: walk_calls [] (root_frame data)) w).
Proof.
  destruct (behaves_run _ _ _ (process_json_behaves data) w) as [a [-> E]].
  exact E.
Qed.

Lemma written_submit_all (l : list intent) (w : world) :
  written (submit_all l w) = written w ++ l.
Proof.
  revert w. induction l as [| i l IH]; intro w; simpl.
  - rewrite app_nil_r. reflexivity.
  - unfold submit_all in IH. rewrite IH. unfold submit. simpl.
    destruct (faults w) as [| [|] fs]; simpl; rewrite <- app_assoc; reflexivity.
Qed.

Lemma emitted_walk (data : json) :
  emitted data = root_intent :: walk_calls [] (root_frame data).
Proof.
  unfold emitted. rewrite run_process_json. simpl snd.
  rewrite written_submit_all. reflexivity.
Qed.

(* ===================================================================== *)
(** ** Order of the statements: nodes before their relationships *)
(* ===================================================================== *)

Section EachAfter.
Context {A : Type}.
Variable ok : list A -> A -> Prop.
Hypothesis ok_mono :
  forall seen seen' x, incl seen seen' -> ok seen x -> ok seen' x.

Lemma each_after_mono (l : list A) :
  forall seen seen',
    incl seen seen' -> each_after ok seen l -> each_after ok seen' l.
Proof.
  induction l as [| x l IH]; intros seen seen' Hincl H; [ exact I | ].
  destruct H as [Hx Hl]. split.
  - exact (ok_mono _ _ _ Hincl Hx).
  - apply (IH (seen ++ [x])); [ | exact Hl ].
    apply incl_app; [ apply incl_appl; exact Hincl | apply incl_appr, incl_refl ].
Qed.

Lemma each_after_app (l1 l2 seen : list A) :
  each_after ok seen l1 -> each_after ok (seen ++ l1) l2 ->
  each_after ok seen (l1 ++ l2).
Proof.
  revert seen. induction l1 as [| x l1 IH]; intros seen H1 H2.
  - rewrite app_nil_r in H2. exact H2.
  - destruct H1 as [Hx H1]. split; [ exact Hx | ].
    apply IH; [ exact H1 | ]. rewrite <- app_assoc. exact H2.
Qed.

Lemma each_after_flat_map {B : Type} (g : B -> list A) (l : list B)
    (seen : list A) :
  (forall x, In x l ->
             forall seen', incl seen seen' -> each_after ok seen' (g x)) ->
  each_after ok seen (flat_map g l).
Proof.
  revert seen. induction l as [| x l IH]; intros seen H; [ exact I | ].
  simpl. apply each_after_app.
  - apply H; [ left; reflexivity | apply incl_refl ].
  - apply IH. intros y Hy seen' Hincl. apply H; [ right; exact Hy | ].
    intros z Hz. apply Hincl. apply in_or_app. left. exact Hz.
Qed.

Lemma each_after_split (l : list A) :
  forall seen pre x post,
    each_after ok seen l -> l = pre ++ x :: post -> ok (seen ++ pre) x.
Proof.
  induction l as [| y l IH]; intros seen pre x post H E.
  - destruct pre; discriminate.
  - destruct H as [Hy Hl]. destruct pre as [| z pre]; simpl in E.
    + injection E as -> _. rewrite app_nil_r. exact Hy.
    + injection E as -> E.
      pose proof (IH _ _ _ _ Hl E) as H.
      rewrite <- app_assoc in H. exact H.
Qed.
End EachAfter.

Lemma ends_before_mono (seen seen' : list intent) (i : intent) :
  incl seen seen' -> ends_before seen i -> ends_before seen' i.
Proof.
  intros Hincl. destruct i as [lb pr | fl fp tl tp t]; [ trivial | ].
  intros [Ha Hb]. split; apply Hincl; assumption.
Qed.

Lemma known_app (l1 l2 seen : list intent) :
  known seen l1 -> known (seen ++ l1) l2 -> known seen (l1 ++ l2).
Proof. apply each_after_app. Qed.

Lemma known_flat_map {B : Type} (g : B -> list intent) (l : list B)
    (seen : list intent) :
  (forall x, In x l -> forall seen', incl seen seen' -> known seen' (g x)) ->
  known seen (flat_map g l).
Proof. apply each_after_flat_map. Qed.

Lemma known_split (l : list intent) :
  forall seen pre post fl fp tl tp t,
    known seen l ->
    l = pre ++ RelIntent fl fp tl tp t :: post ->
    In (NodeIntent fl fp) (seen ++ pre) /\ In (NodeIntent tl tp) (seen ++ pre).
Proof.
  intros seen pre post fl fp tl tp t H E.
  exact (each_after_split ends_before l seen pre _ post H E).
Qed.

(** The direct children of a container: each node, then its relationship
    from the parent, which is already there. *)
Lemma known_children {A : Type} (mk : A -> link) (parent : node) (l : list A) :
  (forall x, l_parent (mk x) = parent) ->
  forall seen,
    In (NodeIntent (fst parent) (snd parent)) seen ->
    known seen (calls_of_links (map mk l)).
Proof.
  intros Hmk seen Hparent. unfold calls_of_links. rewrite flat_map_map.
  apply known_flat_map. intros x _ seen' Hincl.
  unfold link_calls. rewrite Hmk. simpl. repeat split.
  - apply in_or_app. left. apply Hincl. exact Hparent.
  - apply in_or_app. right. left. reflexivity.
Qed.

Lemma child_node_emitted {A : Type} (mk : A -> link) (l : list A) (x : A) :
  In x l ->
  In (NodeIntent (fst (l_child (mk x))) (snd (l_child (mk x))))
     (calls_of_links (map mk l)).
Proof.
  intro Hx. unfold calls_of_links. apply in_flat_map.
  exists (mk x). split; [ apply in_map; exact Hx | left; reflexivity ].
Qed.

Lemma known_visit (v : json) :
  forall p parent seen,
    In (NodeIntent (fst parent) (snd parent)) seen ->
    known seen (calls_of_links (visit p parent v)).
Proof.
  induction v as [x | elements IH | items IH] using json_ind;
    intros p parent seen Hparent.
  - exact I.
  - rewrite visit_list. unfold calls_of_links. rewrite flat_map_app.
    apply known_app.
    + apply (@known_children _
               (fun ix => mkLink (p ++ [Idx (fst ix)]) parent
                                 (list_child (fst parent) ix)) parent);
        [ reflexivity | exact Hparent ].
    + rewrite flat_map_flat_map. apply known_flat_map.
      intros [idx item] Hin seen' Hincl. apply in_rev in Hin.
      assert (Hitem : In item elements).
      { clear - Hin. unfold enumerate in Hin. revert Hin. generalize 0.
        induction elements as [| y l IHl]; intros n H; [ contradiction | ].
        destruct H as [H | H]; [ injection H as _ ->; left; reflexivity | ].
        right. exact (IHl _ H). }
      rewrite Forall_forall in IH. apply (IH item Hitem).
      apply Hincl. apply in_or_app. right.
      apply (@child_node_emitted _
               (fun ix => mkLink (p ++ [Idx (fst ix)]) parent
                                 (list_child (fst parent) ix))
               (enumerate elements) (idx, item) Hin).
  - rewrite visit_dict. unfold calls_of_links. rewrite flat_map_app.
    apply known_app.
    + apply (@known_children _
               (fun kv => mkLink (p ++ [Key (fst kv)]) parent (dict_child kv))
               parent);
        [ reflexivity | exact Hparent ].
    + rewrite flat_map_flat_map. apply known_flat_map.
      intros [key value] Hin seen' Hincl. apply in_rev in Hin.
      rewrite Forall_forall in IH. apply (IH (key, value) Hin).
      apply Hincl. apply in_or_app. right.
      apply (@child_node_emitted _
               (fun kv => mkLink (p ++ [Key (fst kv)]) parent (dict_child kv))
               items (key, value) Hin).
Qed.

Lemma known_emitted (data : json) : known [] (emitted data).
Proof.
  rewrite emitted_walk. split; [ exact I | ].
  unfold walk_calls, root_frame.
  destruct (is_primitive data) eqn:E.
  - destruct data; try discriminate. simpl. auto.
  - apply known_visit. left. reflexivity.
Qed.

(** C3.  For every document, whenever a relationship statement occurs in the
    sequence that [process_json] submits, the node statements of both its
    ends (same label and properties) occur strictly before it. *)
Theorem endpoints_emitted_first (data : json) (pre post : list intent)
    (fl : string) (fp : props) (tl : string) (tp : props) (t : string) :
  emitted data = pre ++ RelIntent fl fp tl tp t :: post ->
  In (NodeIntent fl fp) pre /\ In (NodeIntent tl tp) pre.
Proof.
  intro E. pose proof (known_emitted data) as H.
  eapply known_split in H; [ exact H | exact E ].
Qed.

Lemma endpoints_emitted_first_witness :
  In (NodeIntent "Root" [("name", PStr "root")])
     [NodeIntent "Root" [("name", PStr "root")];
      NodeIntent "A" [("name", PStr "a"); ("value", PInt 1)]]
  /\ In (NodeIntent "A" [("name", PStr "a"); ("value", PInt 1)])
        [NodeIntent "Root" [("name", PStr "root")];
         NodeIntent "A" [("name", PStr "a"); ("value", PInt 1)]].
Proof.
  apply (endpoints_emitted_first
           (JDict [("a", JPrim (PInt 1))])
           [NodeIntent "Root" [("name", PStr "root")];
            NodeIntent "A" [("name", PStr "a"); ("value", PInt 1)]]
           [] "Root" [("name", PStr "root")]
           "A" [("name", PStr "a"); ("value", PInt 1)] "HAS").
  reflexivity.
Defined.

(* ===================================================================== *)
(** ** A bare primitive; a store that rejects a statement *)
(* ===================================================================== *)

(** C6 (the code does otherwise).  For the document [42], [process_json]
    submits the Root statement and then a second statement with label Root,
    for the properties [name: root, value: 42]; every statement is a node
    statement with label Root, and there is no relationship statement.  The
    second statement is an upsert on another property set: the node made by
    the first statement is not updated, it stays without [value], and the
    store holds a second node labelled Root that carries the value. *)
Theorem bare_primitive_document :
  let r := run (process_json (JPrim (PInt 42))) (world_of empty_store []) in
  emitted (JPrim (PInt 42)) =
    [NodeIntent "Root" [("name", PStr "root")];
     NodeIntent "Root" [("name", PStr "root"); ("value", PInt 42)]]
  /\ (forall i, In i (emitted (JPrim (PInt 42))) ->
                exists properties, i = NodeIntent "Root" properties)
  /\ (forall fl fp tl tp t,
         ~ In (RelIntent fl fp tl tp t) (emitted (JPrim (PInt 42))))
  /\ fst r = Returned (IOSuccess tt)
  /\ db (snd r) =
       mkStore [("Root", [("name", PStr "root")]);
                ("Root", [("name", PStr "root"); ("value", PInt 42)])] []
  /\ List.length (nodes (db (snd r))) = 2.
Proof.
  cbn zeta.
  assert (E : emitted (JPrim (PInt 42)) =
              [NodeIntent "Root" [("name", PStr "root")];
               NodeIntent "Root" [("name", PStr "root"); ("value", PInt 42)]])
    by reflexivity.
  split; [ exact E | ]. rewrite E. split; [ | split; [ | split; [ | split ] ] ].
  - intros i [<- | [<- | []]]; eexists; reflexivity.
  - intros fl fp tl tp t [H | [H | []]]; discriminate.
  - reflexivity.
  - reflexivity.
  - reflexivity.
Qed.

(** C2 (the code does otherwise).  The document [{"a": 1}] with a store that
    rejects the first statement: [process_json] still submits the two
    statements that follow the rejected one, and returns a success. *)
Theorem writes_continue_after_failure :
  let w := world_of empty_store [true] in
  let r := run (process_json (JDict [("a", JPrim (PInt 1))])) w in
  fst r = Returned (IOSuccess tt)
  /\ written (snd r) =
       [NodeIntent "Root" [("name", PStr "root")];
        NodeIntent "A" [("name", PStr "a"); ("value", PInt 1)];
        RelIntent "Root" [("name", PStr "root")]
                  "A" [("name", PStr "a"); ("value", PInt 1)] "HAS"]
  /\ nodes (db (snd r)) = [("A", [("name", PStr "a"); ("value", PInt 1)])].
Proof.
  repeat split.
Qed.

(** Whatever fails, the statements submitted for a document are the same. *)
Lemma written_whatever_fails (data : json) (w : world) :
  fst (run (process_json data) w) = Returned (IOSuccess tt)
  /\ written (snd (run (process_json data) w)) = written w ++ emitted data.
Proof.
  rewrite run_process_json. split; [ reflexivity | ].
  cbn [snd]. rewrite written_submit_all, emitted_walk. reflexivity.
Qed.

(* ===================================================================== *)
(** ** The store: upserts *)
(* ===================================================================== *)

Lemma has_node_true (n : node) (s : store) :
  has_node n s = true <-> In n (nodes s).
Proof.
  unfold has_node. destruct (in_dec node_eq_dec n (nodes s)); split;
    intro H; try assumption; try reflexivity; try discriminate; contradiction.
Qed.

Lemma has_edge_true (e : edge) (s : store) :
  has_edge e s = true <-> In e (edges s).
Proof.
  unfold has_edge. destruct (in_dec edge_eq_dec e (edges s)); split;
    intro H; try assumption; try reflexivity; try discriminate; contradiction.
Qed.

Lemma apply_intent_nodes (i : intent) (s : store) (n : node) :
  In n (nodes s) -> In n (nodes (apply_intent i s)).
Proof.
  intro H. destruct i as [lb pr | fl fp tl tp t]; simpl.
  - unfold merge_node. destruct (has_node (lb, pr) s); simpl; [ exact H | ].
    apply in_or_app. left. exact H.
  - destruct (has_node (fl, fp) s && has_node (tl, tp) s); [ | exact H ].
    destruct (has_edge _ s); exact H.
Qed.

Lemma apply_intent_edges (i : intent) (s : store) (e : edge) :
  In e (edges s) -> In e (edges (apply_intent i s)).
Proof.
  intro H. destruct i as [lb pr | fl fp tl tp t]; simpl.
  - unfold merge_node. destruct (has_node (lb, pr) s); exact H.
  - destruct (has_node (fl, fp) s && has_node (tl, tp) s); [ | exact H ].
    destruct (has_edge _ s); simpl; [ exact H | ].
    apply in_or_app. left. exact H.
Qed.

Lemma replay_nodes (l : list intent) (s : store) (n : node) :
  In n (nodes s) -> In n (nodes (replay l s)).
Proof.
  revert s. induction l as [| i l IH]; intros s H; [ exact H | ].
  apply IH. apply apply_intent_nodes. exact H.
Qed.

Lemma replay_edges (l : list intent) (s : store) (e : edge) :
  In e (edges s) -> In e (edges (replay l s)).
Proof.
  revert s. induction l as [| i l IH]; intros s H; [ exact H | ].
  apply IH. apply apply_intent_edges. exact H.
Qed.

Lemma merge_node_in (n : node) (s : store) : In n (nodes (merge_node n s)).
Proof.
  unfold merge_node. destruct (has_node n s) eqn:E.
  - apply has_node_true. exact E.
  - simpl. apply in_or_app. right. left. reflexivity.
Qed.

Lemma merge_edge_in (a b : node) (t : string) (s : store) :
  In a (nodes s) -> In b (nodes s) ->
  In (a, t, b) (edges (merge_edge (a, t, b) s)).
Proof.
  intros Ha Hb. unfold merge_edge.
  apply has_node_true in Ha. apply has_node_true in Hb. rewrite Ha, Hb. simpl.
  destruct (has_edge (a, t, b) s) eqn:E.
  - apply has_edge_true. exact E.
  - simpl. apply in_or_app. right. left. reflexivity.
Qed.

Lemma settles_apply (s : store) (i : intent) :
  settles s i -> apply_intent i s = s.
Proof.
  destruct i as [lb pr | fl fp tl tp t]; simpl.
  - intro H. unfold merge_node. apply has_node_true in H. rewrite H. reflexivity.
  - intros [Ha [Hb He]].
    apply has_node_true in Ha. apply has_node_true in Hb.
    apply has_edge_true in He. rewrite Ha, Hb, He. reflexivity.
Qed.

Lemma settles_replay (l : list intent) (s : store) :
  Forall (settles s) l -> replay l s = s.
Proof.
  induction l as [| i l IH]; intro H; [ reflexivity | ].
  inversion H as [| ? ? Hi Hl]; subst. simpl.
  rewrite (settles_apply _ _ Hi). apply IH. exact Hl.
Qed.

Lemma settles_mono (i j : intent) (s : store) :
  settles s i -> settles (apply_intent j s) i.
Proof.
  destruct i as [lb pr | fl fp tl tp t]; simpl.
  - apply apply_intent_nodes.
  - intros [Ha [Hb He]]. repeat split;
      [ apply apply_intent_nodes | apply apply_intent_nodes
        | apply apply_intent_edges ]; assumption.
Qed.

(** Replaying a sequence in which the nodes come before their relationships
    leaves a store that every statement of the sequence finds settled. *)
Lemma replay_settles (l : list intent) :
  forall seen s,
    Forall (settles s) seen ->
    known seen l ->
    Forall (settles (replay l s)) (seen ++ l).
Proof.
  induction l as [| i l IH]; intros seen s Hseen Hk.
  - rewrite app_nil_r. exact Hseen.
  - destruct Hk as [Hi Hl]. simpl replay.
    replace (seen ++ i :: l) with ((seen ++ [i]) ++ l)
      by (rewrite <- app_assoc; reflexivity).
    apply IH; [ | exact Hl ].
    apply Forall_app. split.
    + apply Forall_impl with (P := settles s); [ | exact Hseen ].
      intros j Hj. apply settles_mono. exact Hj.
    + constructor; [ | constructor ].
      rewrite Forall_forall in Hseen.
      destruct i as [lb pr | fl fp tl tp t]; cbn [apply_intent settles].
      * apply merge_node_in.
      * destruct Hi as [Ha Hb].
        pose proof (Hseen _ Ha) as Ha'. pose proof (Hseen _ Hb) as Hb'.
        simpl in Ha', Hb'.
        pose proof (merge_edge_in (fl, fp) (tl, tp) t s Ha' Hb') as He.
        assert (Hn : nodes (merge_edge (fl, fp, t, (tl, tp)) s) = nodes s).
        { unfold merge_edge.
          destruct (has_node (fl, fp) s && has_node (tl, tp) s);
            [ destruct (has_edge _ s) | ]; reflexivity. }
        rewrite Hn. repeat split; assumption.
Qed.

Lemma apply_intent_nodup (i : intent) (s : store) :
  NoDup (nodes s) /\ NoDup (edges s) ->
  NoDup (nodes (apply_intent i s)) /\ NoDup (edges (apply_intent i s)).
Proof.
  intros [Hn He]. destruct i as [lb pr | fl fp tl tp t]; simpl.
  - unfold merge_node. destruct (has_node (lb, pr) s) eqn:E; simpl;
      [ split; assumption | ].
    split; [ | exact He ].
    apply NoDup_app; [ exact Hn | repeat constructor; intros [] | ].
    intros n Hin [<- | []].
    apply has_node_true in Hin. congruence.
  - destruct (has_node (fl, fp) s && has_node (tl, tp) s);
      [ | split; assumption ].
    destruct (has_edge (fl, fp, t, (tl, tp)) s) eqn:E; simpl;
      [ split; assumption | ].
    split; [ exact Hn | ].
    apply NoDup_app; [ exact He | repeat constructor; intros [] | ].
    intros e Hin [<- | []].
    apply has_edge_true in Hin. congruence.
Qed.

Lemma replay_nodup (l : list intent) (s : store) :
  NoDup (nodes s) /\ NoDup (edges s) ->
  NoDup (nodes (replay l s)) /\ NoDup (edges (replay l s)).
Proof.
  revert s. induction l as [| i l IH]; intros s H; [ exact H | ].
  apply IH. apply apply_intent_nodup. exact H.
Qed.

Lemma db_submit_all (l : list intent) (w : world) :
  faults w = [] -> db (submit_all l w) = replay l (db w).
Proof.
  revert w. induction l as [| i l IH]; intros w Hf; [ reflexivity | ].
  simpl. unfold submit_all in IH. rewrite IH.
  - unfold submit. simpl. rewrite Hf. reflexivity.
  - unfold submit. simpl. rewrite Hf. reflexivity.
Qed.

(** C5.  Replaying the statements of a document on the store that a first
    replay left gives that same store, whatever the store was at the start;
    a run of [process_json] that meets no failure applies exactly that
    sequence; and no node or edge is held twice: a statement whose label and
    properties are in the store resolves to the node that is there. *)
Theorem replay_twice_is_once (data : json) (s : store) :
  replay (emitted data) (replay (emitted data) s) = replay (emitted data) s
  /\ db (snd (run (process_json data) (world_of s []))) = replay (emitted data) s
  /\ NoDup (nodes (replay (emitted data) empty_store))
  /\ NoDup (edges (replay (emitted data) empty_store)).
Proof.
  split; [ | split ].
  - apply settles_replay.
    apply (replay_settles (emitted data) [] s (Forall_nil _) (known_emitted data)).
  - rewrite run_process_json. cbn [snd].
    rewrite db_submit_all by reflexivity. rewrite emitted_walk. reflexivity.
  - apply replay_nodup. split; constructor.
Qed.

(* ===================================================================== *)
(** ** Shape of the whole sequence *)
(* ===================================================================== *)

Lemma inside_mono (p : path) (parent : node) (seen seen' : list link)
    (lk : link) :
  incl seen seen' -> inside p parent seen lk -> inside p parent seen' lk.
Proof.
  intros Hincl [H | [lk' [s [Hin H]]]]; [ left; exact H | right ].
  exists lk', s. split; [ apply Hincl; exact Hin | exact H ].
Qed.

Lemma each_after_all {A : Type} (ok : list A -> A -> Prop) (l : list A) :
  forall seen,
    (forall seen' x, In x l -> ok seen' x) -> each_after ok seen l.
Proof.
  induction l as [| x l IH]; intros seen H; [ exact I | ].
  split; [ apply H; left; reflexivity | ].
  apply IH. intros seen' y Hy. apply H. right. exact Hy.
Qed.

Lemma each_after_impl {A : Type} (ok1 ok2 : list A -> A -> Prop)
    (seen0 : list A) (l : list A) :
  (forall seen x, incl seen0 seen -> ok1 seen x -> ok2 seen x) ->
  forall seen, incl seen0 seen -> each_after ok1 seen l -> each_after ok2 seen l.
Proof.
  intro Himpl. induction l as [| x l IH]; intros seen Hincl H; [ exact I | ].
  destruct H as [Hx Hl]. split; [ apply Himpl; assumption | ].
  apply IH; [ | exact Hl ]. apply incl_appl. exact Hincl.
Qed.

Lemma emitted_shape (data : json) :
  emitted data =
  root_intent :: reemitted_root data
              ++ calls_of_links (visit [] root_node data).
Proof.
  rewrite emitted_walk. f_equal. unfold walk_calls, root_frame, reemitted_root.
  destruct data as [x | elements | items]; cbn [is_primitive is_dict is_list orb negb].
  - cbn [visit calls_of_links flat_map]. rewrite app_nil_r. reflexivity.
  - reflexivity.
  - reflexivity.
Qed.

Lemma map_flat_map {A B C : Type} (f : B -> C) (g : A -> list B) (l : list A) :
  map f (flat_map g l) = flat_map (fun x => map f (g x)) l.
Proof.
  induction l as [| x l IH]; [ reflexivity | ].
  simpl. rewrite map_app, IH. reflexivity.
Qed.

Lemma Permutation_heads {A B : Type} (a : A -> B) (b : A -> list B)
    (l : list A) :
  Permutation (map a l ++ flat_map b l) (flat_map (fun x => a x :: b x) l).
Proof.
  induction l as [| x l IH]; [ constructor | ].
  simpl. constructor.
  apply Permutation_trans with (b x ++ map a l ++ flat_map b l).
  - rewrite !app_assoc. apply Permutation_app_tail. apply Permutation_app_comm.
  - apply Permutation_app_head. exact IH.
Qed.

Lemma Permutation_flat_map_pointwise {A B : Type} (g h : A -> list B)
    (l : list A) :
  (forall x, In x l -> Permutation (g x) (h x)) ->
  Permutation (flat_map g l) (flat_map h l).
Proof.
  induction l as [| x l IH]; intro H; [ constructor | ].
  simpl. apply Permutation_app.
  - apply H. left. reflexivity.
  - apply IH. intros y Hy. apply H. right. exact Hy.
Qed.

Lemma in_enumerate_from {A : Type} (l : list A) :
  forall start idx x, In (idx, x) (enumerate_from start l) -> In x l.
Proof.
  induction l as [| y l IH]; intros start idx x H; [ contradiction | ].
  destruct H as [H | H]; [ injection H as _ ->; left; reflexivity | ].
  right. exact (IH _ _ _ H).
Qed.

(** The walk makes one link for each place below the top. *)
Lemma visit_paths (v : json) :
  forall p parent,
    Permutation (map l_path (visit p parent v)) (map (app p) (below v)).
Proof.
  induction v as [x | elements IH | items IH] using json_ind; intros p parent.
  - constructor.
  - rewrite visit_list, below_list, map_app, map_map, !map_flat_map.
    cbn [l_path].
    eapply Permutation_trans.
    { apply Permutation_app_head. apply Permutation_flat_map.
      symmetry. apply Permutation_rev. }
    eapply Permutation_trans.
    { apply (Permutation_heads (fun ix : nat * json => p ++ [Idx (fst ix)])). }
    apply Permutation_flat_map_pointwise. intros [idx item] Hin.
    cbn [map fst snd]. constructor. rewrite map_map.
    rewrite Forall_forall in IH.
    eapply Permutation_trans;
      [ apply (IH item (in_enumerate_from _ _ _ _ Hin)) | ].
    erewrite map_ext; [ reflexivity | ].
    intro q. rewrite <- app_assoc. reflexivity.
  - rewrite visit_dict, below_dict, map_app, map_map, !map_flat_map.
    cbn [l_path].
    eapply Permutation_trans.
    { apply Permutation_app_head. apply Permutation_flat_map.
      symmetry. apply Permutation_rev. }
    eapply Permutation_trans.
    { apply (Permutation_heads (fun kv : string * json => p ++ [Key (fst kv)])). }
    apply Permutation_flat_map_pointwise. intros [key value] Hin.
    cbn [map fst snd]. constructor. rewrite map_map.
    rewrite Forall_forall in IH.
    eapply Permutation_trans; [ apply (IH (key, value) Hin) | ].
    erewrite map_ext; [ reflexivity | ].
    intro q. rewrite <- app_assoc. reflexivity.
Qed.

(** In the order of the walk, the place that contains a link is the
    starting place or the place of an earlier link. *)
Lemma visit_inside (v : json) :
  forall p parent seen, each_after (inside p parent) seen (visit p parent v).
Proof.
  induction v as [x | elements IH | items IH] using json_ind;
    intros p parent seen.
  - exact I.
  - rewrite visit_list. apply each_after_app.
    + apply each_after_all. intros seen' lk Hlk.
      apply in_map_iff in Hlk. destruct Hlk as [[idx item] [<- _]].
      left. exists (Idx idx). split; reflexivity.
    + apply each_after_flat_map. intros [idx item] Hin seen' Hincl.
      apply in_rev in Hin. cbn [fst snd].
      rewrite Forall_forall in IH.
      pose proof (IH item (in_enumerate_from _ _ _ _ Hin)
                     (p ++ [Idx idx]) (list_child (fst parent) (idx, item))
                     seen') as H.
      revert H.
      apply each_after_impl with (seen0 := seen'); [ | apply incl_refl ].
      intros seen'' lk Hincl' [[s [Hp Hpar]] | H]; right.
      * exists (mkLink (p ++ [Idx idx]) parent
                       (list_child (fst parent) (idx, item))), s.
        split; [ | split; assumption ].
        apply Hincl', Hincl. apply in_or_app. right.
        apply (in_map (fun ix => mkLink (p ++ [Idx (fst ix)]) parent
                                        (list_child (fst parent) ix))
                      _ (idx, item) Hin).
      * exact H.
  - rewrite visit_dict. apply each_after_app.
    + apply each_after_all. intros seen' lk Hlk.
      apply in_map_iff in Hlk. destruct Hlk as [[key value] [<- _]].
      left. exists (Key key). split; reflexivity.
    + apply each_after_flat_map. intros [key value] Hin seen' Hincl.
      apply in_rev in Hin. cbn [fst snd].
      rewrite Forall_forall in IH.
      pose proof (IH (key, value) Hin
                     (p ++ [Key key]) (dict_child (key, value)) seen') as H.
      revert H.
      apply each_after_impl with (seen0 := seen'); [ | apply incl_refl ].
      intros seen'' lk Hincl' [[s [Hp Hpar]] | H]; right.
      * exists (mkLink (p ++ [Key key]) parent (dict_child (key, value))), s.
        split; [ | split; assumption ].
        apply Hincl', Hincl. apply in_or_app. right.
        apply (in_map (fun kv => mkLink (p ++ [Key (fst kv)]) parent
                                        (dict_child kv))
                      _ (key, value) Hin).
      * exact H.
Qed.

Lemma enumerate_indices {A : Type} (l : list A) :
  map fst (enumerate l) = seq 0 (List.length l).
Proof.
  unfold enumerate. generalize 0.
  induction l as [| x l IH]; intro start; [ reflexivity | ].
  simpl. rewrite IH. reflexivity.
Qed.

(** C7.  The sequence submitted for a document is a function of the document
    alone: the same whatever the store holds and whatever fails.  It is the
    Root statement followed by the statements of the links in the order of
    the walk, and that order takes the keys of an object in document order
    and the elements of an array by index from 0, before it goes into the
    containers found among them, the last one first. *)
Theorem traversal_order :
  (forall data w,
      written (snd (run (process_json data) w)) = written w ++ emitted data)
  /\ (forall data,
         emitted data =
         root_intent :: reemitted_root data
                     ++ calls_of_links (visit [] root_node data))
  /\ (forall p parent items,
         visit p parent (JDict items) =
         map (fun kv => mkLink (p ++ [Key (fst kv)]) parent (dict_child kv))
             items
         ++ flat_map (fun kv => visit (p ++ [Key (fst kv)]) (dict_child kv)
                                      (snd kv))
                     (rev items))
  /\ (forall p parent elements,
         visit p parent (JList elements) =
         map (fun ix => mkLink (p ++ [Idx (fst ix)]) parent
                               (list_child (fst parent) ix))
             (enumerate elements)
         ++ flat_map (fun ix => visit (p ++ [Idx (fst ix)])
                                      (list_child (fst parent) ix) (snd ix))
                     (rev (enumerate elements)))
  /\ (forall elements : list json,
         map fst (enumerate elements) = seq 0 (List.length elements)).
Proof.
  split; [ | split; [ | split; [ | split ] ] ].
  - intros data w. apply written_whatever_fails.
  - apply emitted_shape.
  - apply visit_dict.
  - apply visit_list.
  - intro elements. apply enumerate_indices.
Qed.

(** C8 fails as worded: for [{"a": 1}] the node of ["a"] comes second, and
    only the Root statement is before it. *)
Lemma relationship_precedes_node_fails :
  ~ relationship_precedes_node (JDict [("a", JPrim (PInt 1))]).
Proof.
  intro H.
  destruct (H [NodeIntent "Root" [("name", PStr "root")]]
              "A" [("name", PStr "a"); ("value", PInt 1)]
              [RelIntent "Root" [("name", PStr "root")]
                         "A" [("name", PStr "a"); ("value", PInt 1)] "HAS"]
              eq_refl ltac:(discriminate))
    as [fl [fp [t [Hin | []]]]].
  discriminate.
Qed.

(** C8, amended.  After the Root statement (and, for a document that is not
    a container, its second form), the sequence is made of pairs: the node
    statement of a place, followed at once by the one ["HAS"] relationship
    from the node of the containing place to it.  There is one pair for
    each place below the top, and the pair of a place comes before the pairs
    of the places inside it. *)
Theorem relationship_follows_node (data : json) :
  emitted data =
    root_intent :: reemitted_root data
                ++ flat_map link_calls (visit [] root_node data)
  /\ (forall lk, link_calls lk =
        [NodeIntent (fst (l_child lk)) (snd (l_child lk));
         RelIntent (fst (l_parent lk)) (snd (l_parent lk))
                   (fst (l_child lk)) (snd (l_child lk)) "HAS"])
  /\ Permutation (map l_path (visit [] root_node data)) (below data)
  /\ each_after (inside [] root_node) [] (visit [] root_node data).
Proof.
  split; [ apply emitted_shape | split; [ reflexivity | split ] ].
  - pose proof (visit_paths data [] root_node) as H.
    rewrite map_id in H. exact H.
  - apply visit_inside.
Qed.

(* ===================================================================== *)
(** ** The graph rebuilt from the statements, and the tree of the document *)
(* ===================================================================== *)

(** C1 fails as worded.  In [{"a": {"a": {}}}] the inner and the outer ["a"]
    get the same label and properties: the store holds one node for both,
    with an edge to itself.  In [{"root": {}}] the key gets the label and the
    properties of the Root node: the store holds one node for the top and
    for the key, with an edge to itself.  For the document [42] the store
    holds two Root nodes, the second with [value: 42], for the one place of
    the document. *)
Lemma not_isomorphic_examples :
  ~ isomorphic (JDict [("a", JDict [("a", JDict [])])])
               (graph_of (JDict [("a", JDict [("a", JDict [])])]))
  /\ ~ isomorphic (JDict [("root", JDict [])])
                  (graph_of (JDict [("root", JDict [])]))
  /\ ~ isomorphic (JPrim (PInt 42)) (graph_of (JPrim (PInt 42))).
Proof.
  split; [ | split ].
  - intros [f [Hinj [_ [_ [_ Hback]]]]].
    destruct (Hback (("A", [("name", PStr "a")]), "HAS",
                     ("A", [("name", PStr "a")])))
      as [p [q [[Hp [Hq [s Hs]]] E]]].
    { vm_compute. right. left. reflexivity. }
    injection E as E1 E2.
    assert (Hpq : p = q) by (apply Hinj; [ exact Hp | exact Hq | congruence ]).
    rewrite <- Hpq in Hs. apply (f_equal (@List.length step)) in Hs.
    rewrite length_app in Hs. simpl in Hs. lia.
  - intros [f [Hinj [_ [_ [_ Hback]]]]].
    destruct (Hback (("Root", [("name", PStr "root")]), "HAS",
                     ("Root", [("name", PStr "root")])))
      as [p [q [[Hp [Hq [s Hs]]] E]]].
    { vm_compute. left. reflexivity. }
    injection E as E1 E2.
    assert (Hpq : p = q) by (apply Hinj; [ exact Hp | exact Hq | congruence ]).
    rewrite <- Hpq in Hs. apply (f_equal (@List.length step)) in Hs.
    rewrite length_app in Hs. simpl in Hs. lia.
  - intros [f [_ [Hnodes [Hroot _]]]].
    destruct (proj1 (Hnodes ("Root", [("name", PStr "root"); ("value", PInt 42)])))
      as [p [Hp E]].
    { vm_compute. right. left. reflexivity. }
    destruct Hp as [<- | []]. rewrite Hroot in E. discriminate.
Qed.

Lemma below_nonempty (v : json) (q : path) : In q (below v) -> q <> [].
Proof.
  destruct v as [x | elements | items].
  - intros [].
  - rewrite below_list. intro H. apply in_flat_map in H.
    destruct H as [ix [_ [<- | H]]]; [ discriminate | ].
    apply in_map_iff in H. destruct H as [r [<- _]]. discriminate.
  - rewrite below_dict. intro H. apply in_flat_map in H.
    destruct H as [kv [_ [<- | H]]]; [ discriminate | ].
    apply in_map_iff in H. destruct H as [r [<- _]]. discriminate.
Qed.

Lemma unique_keys_list (elements : list json) :
  unique_keys (JList elements) <-> Forall unique_keys elements.
Proof.
  cbn [unique_keys]. induction elements as [| x l IH].
  - split; intro; constructor.
  - split.
    + intros [Hx Hl]. constructor; [ exact Hx | apply IH; exact Hl ].
    + intro H. inversion H as [| ? ? Hx Hl]; subst.
      split; [ exact Hx | apply IH; exact Hl ].
Qed.

Lemma unique_keys_dict (items : list (string * json)) :
  unique_keys (JDict items) <->
  NoDup (map fst items) /\ Forall (fun kv => unique_keys (snd kv)) items.
Proof.
  cbn [unique_keys].
  assert (H : (fix all (l : list (string * json)) : Prop :=
                 match l with
                 | [] => True
                 | kv :: l' => unique_keys (snd kv) /\ all l'
                 end) items
              <-> Forall (fun kv => unique_keys (snd kv)) items).
  { induction items as [| x l IH].
    - split; intro; constructor.
    - split.
      + intros [Hx Hl]. constructor; [ exact Hx | apply IH; exact Hl ].
      + intro H. inversion H as [| ? ? Hx Hl]; subst.
        split; [ exact Hx | apply IH; exact Hl ]. }
  rewrite H. reflexivity.
Qed.

Lemma NoDup_blocks {A : Type} (tag : A -> step) (g : A -> list path)
    (l : list A) :
  NoDup (map tag l) ->
  (forall x, In x l -> NoDup (g x)) ->
  (forall x q, In q (g x) -> exists r, q = tag x :: r) ->
  NoDup (flat_map g l).
Proof.
  intros Htags Hblock Hhead. induction l as [| x l IH]; [ constructor | ].
  simpl in Htags. inversion Htags as [| ? ? Hx Hl]; subst.
  simpl. apply NoDup_app.
  - apply Hblock. left. reflexivity.
  - apply IH; [ exact Hl | ]. intros y Hy. apply Hblock. right. exact Hy.
  - intros q Hq Hq'. apply in_flat_map in Hq'. destruct Hq' as [y [Hy Hqy]].
    destruct (Hhead _ _ Hq) as [r ->]. destruct (Hhead _ _ Hqy) as [r' E].
    injection E as E _. apply Hx. rewrite E. apply in_map. exact Hy.
Qed.

Lemma NoDup_block (s : step) (v : json) :
  NoDup (below v) -> NoDup ([s] :: map (cons s) (below v)).
Proof.
  intro H. constructor.
  - intro Hin. apply in_map_iff in Hin. destruct Hin as [r [E Hr]].
    injection E as ->. exact (below_nonempty _ _ Hr eq_refl).
  - apply Injective_map_NoDup; [ | exact H ].
    intros a b E. injection E as ->. reflexivity.
Qed.

Lemma block_head (s : step) (v : json) (q : path) :
  In q ([s] :: map (cons s) (below v)) -> exists r, q = s :: r.
Proof.
  intros [<- | H]; [ exists []; reflexivity | ].
  apply in_map_iff in H. destruct H as [r [<- _]]. exists r. reflexivity.
Qed.

(** With each key once in every object, each place has its own path. *)
Lemma NoDup_below (v : json) : unique_keys v -> NoDup (below v).
Proof.
  induction v as [x | elements IH | items IH] using json_ind; intro Hu.
  - constructor.
  - rewrite below_list. apply unique_keys_list in Hu.
    apply (NoDup_blocks (fun ix : nat * json => Idx (fst ix))).
    + rewrite <- map_map, enumerate_indices.
      apply Injective_map_NoDup; [ | apply seq_NoDup ].
      intros a b E. injection E as ->. reflexivity.
    + intros [idx item] Hin. cbn [fst snd]. apply NoDup_block.
      pose proof (in_enumerate_from _ _ _ _ Hin) as Hitem.
      rewrite Forall_forall in IH, Hu. apply IH; [ exact Hitem | ].
      apply Hu. exact Hitem.
    + intros ix q. apply block_head.
  - rewrite below_dict. apply unique_keys_dict in Hu. destruct Hu as [Hk Hu].
    apply (NoDup_blocks (fun kv : string * json => Key (fst kv))).
    + rewrite <- map_map.
      apply Injective_map_NoDup; [ | exact Hk ].
      intros a b E. injection E as ->. reflexivity.
    + intros kv Hin. apply NoDup_block.
      rewrite Forall_forall in IH, Hu. apply IH; [ exact Hin | ].
      apply Hu. exact Hin.
    + intros kv q. apply block_head.
Qed.

Lemma find_path_unique (L : list link) (lk : link) :
  NoDup (map l_path L) -> In lk L ->
  find (fun lk' => if path_eq_dec (l_path lk') (l_path lk) then true else false)
       L = Some lk.
Proof.
  induction L as [| x L IH]; intros Hnd Hin; [ contradiction | ].
  simpl in Hnd. inversion Hnd as [| ? ? Hx HL]; subst. simpl.
  destruct (path_eq_dec (l_path x) (l_path lk)) as [E | E].
  - destruct Hin as [-> | Hin]; [ reflexivity | ].
    exfalso. apply Hx. rewrite E. apply in_map. exact Hin.
  - destruct Hin as [-> | Hin]; [ contradiction | ].
    apply IH; assumption.
Qed.

Lemma find_path_none (L : list link) (q : path) :
  ~ In q (map l_path L) ->
  find (fun lk' => if path_eq_dec (l_path lk') q then true else false) L = None.
Proof.
  induction L as [| x L IH]; intro H; [ reflexivity | ].
  simpl. destruct (path_eq_dec (l_path x) q) as [E | E].
  - exfalso. apply H. left. exact E.
  - apply IH. intro Hin. apply H. right. exact Hin.
Qed.

Lemma node_intents_links (L : list link) :
  node_intents (calls_of_links L) = map l_child L.
Proof.
  induction L as [| lk L IH]; [ reflexivity | ].
  simpl. rewrite <- IH. destruct (l_child lk). reflexivity.
Qed.

Lemma node_intents_root (L : list link) :
  node_intents (root_intent :: calls_of_links L) = root_node :: map l_child L.
Proof.
  rewrite <- node_intents_links. reflexivity.
Qed.

Lemma node_intents_in (l : list intent) (lb : string) (pr : props) :
  In (lb, pr) (node_intents l) <-> In (NodeIntent lb pr) l.
Proof.
  unfold node_intents. rewrite in_flat_map. split.
  - intros [i [Hi Hin]]. destruct i as [lb' pr' | ]; [ | contradiction ].
    destruct Hin as [E | []]. injection E as -> ->. exact Hi.
  - intro H. exists (NodeIntent lb pr). split; [ exact H | left; reflexivity ].
Qed.

Lemma replay_nodes_from (l : list intent) :
  forall s n,
    In n (nodes (replay l s)) -> In n (nodes s) \/ In n (node_intents l).
Proof.
  induction l as [| i l IH]; intros s n H; [ left; exact H | ].
  simpl in H. apply IH in H. destruct H as [H | H].
  - destruct i as [lb pr | fl fp tl tp t]; simpl in H.
    + unfold merge_node in H. destruct (has_node (lb, pr) s);
        [ left; exact H | ].
      simpl in H. apply in_app_or in H. destruct H as [H | [<- | []]];
        [ left; exact H | right; left; reflexivity ].
    + left. destruct (has_node (fl, fp) s && has_node (tl, tp) s);
        [ destruct (has_edge _ s) | ]; exact H.
  - right. unfold node_intents. simpl. apply in_or_app. right. exact H.
Qed.

Lemma replay_edges_from (l : list intent) :
  forall s e,
    In e (edges (replay l s)) ->
    In e (edges s)
    \/ exists fl fp tl tp t,
         In (RelIntent fl fp tl tp t) l /\ e = ((fl, fp), t, (tl, tp)).
Proof.
  induction l as [| i l IH]; intros s e H; [ left; exact H | ].
  simpl in H. apply IH in H. destruct H as [H | [fl [fp [tl [tp [t [Hin E]]]]]]].
  - destruct i as [lb pr | fl fp tl tp t]; simpl in H.
    + left. unfold merge_node in H. destruct (has_node (lb, pr) s); exact H.
    + destruct (has_node (fl, fp) s && has_node (tl, tp) s); [ | left; exact H ].
      destruct (has_edge _ s); [ left; exact H | ].
      simpl in H. apply in_app_or in H. destruct H as [H | [<- | []]];
        [ left; exact H | right ].
      exists fl, fp, tl, tp, t. split; [ left; reflexivity | reflexivity ].
  - right. exists fl, fp, tl, tp, t. split; [ right; exact Hin | exact E ].
Qed.

Lemma NoDup_map_eq {A B : Type} (g : A -> B) (l : list A) (x y : A) :
  NoDup (map g l) -> In x l -> In y l -> g x = g y -> x = y.
Proof.
  induction l as [| z l IH]; intros Hnd Hx Hy E; [ contradiction | ].
  simpl in Hnd. inversion Hnd as [| ? ? Hz Hl]; subst.
  destruct Hx as [-> | Hx]; destruct Hy as [-> | Hy].
  - reflexivity.
  - exfalso. apply Hz. rewrite E. apply in_map. exact Hy.
  - exfalso. apply Hz. rewrite <- E. apply in_map. exact Hx.
  - apply IH; assumption.
Qed.

Section Isomorphism.
Variable data : json.
Hypothesis Hcontainer : is_primitive data = false.
Hypothesis Hkeys : unique_keys data.
Hypothesis Hdistinct : NoDup (node_intents (emitted data)).

Let L : list link := visit [] root_node data.

Lemma emitted_container : emitted data = root_intent :: calls_of_links L.
Proof.
  rewrite emitted_shape. unfold reemitted_root.
  destruct data; [ discriminate | reflexivity | reflexivity ].
Qed.

Lemma paths_of_links : Permutation (map l_path L) (below data).
Proof.
  pose proof (visit_paths data [] root_node) as H.
  rewrite map_id in H. exact H.
Qed.

Lemma paths_distinct : NoDup (map l_path L).
Proof.
  apply Permutation_NoDup with (l := below data).
  - symmetry. apply paths_of_links.
  - apply NoDup_below. exact Hkeys.
Qed.

Lemma children_distinct : NoDup (root_node :: map l_child L).
Proof.
  pose proof Hdistinct as H. rewrite emitted_container in H.
  change (node_intents (root_intent :: calls_of_links L))
    with (root_node :: node_intents (calls_of_links L)) in H.
  rewrite node_intents_links in H. exact H.
Qed.

Lemma node_at_link (lk : link) :
  In lk L -> node_at data (l_path lk) = l_child lk.
Proof.
  intro Hin. unfold node_at. fold L.
  rewrite (find_path_unique L lk paths_distinct Hin). reflexivity.
Qed.

Lemma node_at_top : node_at data [] = root_node.
Proof.
  unfold node_at. fold L. rewrite find_path_none; [ reflexivity | ].
  intro Hin. apply (Permutation_in _ paths_of_links) in Hin.
  exact (below_nonempty _ _ Hin eq_refl).
Qed.

Lemma slot_cases (p : path) :
  In p (slots data) <-> p = [] \/ exists lk, In lk L /\ l_path lk = p.
Proof.
  unfold slots. split.
  - intros [<- | H]; [ left; reflexivity | right ].
    apply (Permutation_in _ (Permutation_sym paths_of_links)) in H.
    apply in_map_iff in H. destruct H as [lk [E Hin]].
    exists lk. split; assumption.
  - intros [-> | [lk [Hin <-]]]; [ left; reflexivity | right ].
    apply (Permutation_in _ paths_of_links). apply in_map. exact Hin.
Qed.

(** The place that contains a link, and its node. *)
Lemma parent_of_link (lk : link) :
  In lk L ->
  exists pp s,
    l_path lk = pp ++ [s] /\ In pp (slots data)
    /\ node_at data pp = l_parent lk.
Proof.
  intro Hin. destruct (in_split _ _ Hin) as [pre [post E]].
  pose proof (visit_inside data [] root_node []) as H. fold L in H.
  pose proof (each_after_split _ _ _ _ _ _ H E) as Hlk.
  destruct Hlk as [[s [Hp Hpar]] | [lk' [s [Hin' [Hp Hpar]]]]].
  - exists [], s. split; [ exact Hp | split ].
    + left. reflexivity.
    + rewrite node_at_top. symmetry. exact Hpar.
  - assert (HinL : In lk' L).
    { rewrite E. apply in_or_app. left. exact Hin'. }
    exists (l_path lk'), s. split; [ exact Hp | split ].
    + apply slot_cases. right. exists lk'. split; [ exact HinL | reflexivity ].
    + rewrite (node_at_link lk' HinL). symmetry. exact Hpar.
Qed.

Lemma link_edge_stored (lk : link) :
  In lk L ->
  In (l_parent lk, "HAS", l_child lk) (edges (graph_of data)).
Proof.
  intro Hin.
  pose proof (replay_settles (emitted data) [] empty_store (Forall_nil _)
                             (known_emitted data)) as H.
  rewrite Forall_forall in H.
  assert (Hrel : In (RelIntent (fst (l_parent lk)) (snd (l_parent lk))
                               (fst (l_child lk)) (snd (l_child lk)) "HAS")
                    (emitted data)).
  { rewrite emitted_container. right. unfold calls_of_links.
    apply in_flat_map. exists lk. split; [ exact Hin | ].
    right. left. reflexivity. }
  apply H in Hrel. destruct Hrel as [_ [_ He]].
  destruct (l_parent lk), (l_child lk). exact He.
Qed.

End Isomorphism.

(** C1, amended.  For a document that is an object or an array, with each
    key once in every object, and whose node statements, the Root statement
    included, are pairwise different (the Root node and the nodes of all the
    keys and array slots are different (label, properties) pairs), the store
    that a replay of the statements leaves from the empty store is
    isomorphic to the tree of the document: one node for each place, the
    Root node for the top, and a ["HAS"] edge from the node of a place to
    the node of each place directly inside it, and no other edge. *)
Theorem graph_isomorphic_when_distinct (data : json) :
  is_primitive data = false ->
  unique_keys data ->
  NoDup (node_intents (emitted data)) ->
  isomorphic data (graph_of data).
Proof.
  intros Hcontainer Hkeys Hdistinct.
  pose (L := visit [] root_node data).
  exists (node_at data). split; [ | split; [ | split; [ | split ] ] ].
  - (* one node per place *)
    intros p q Hp Hq E.
    apply slot_cases in Hp. apply slot_cases in Hq.
    pose proof (children_distinct data Hcontainer Hkeys Hdistinct) as Hnd.
    inversion Hnd as [| ? ? Hroot Hrest]; subst.
    destruct Hp as [-> | [lk [Hlk <-]]]; destruct Hq as [-> | [lk' [Hlk' <-]]].
    + reflexivity.
    + exfalso.
      rewrite (node_at_top data), (node_at_link data Hkeys lk' Hlk') in E.
      apply Hroot. apply in_map_iff. exists lk'.
      split; [ symmetry; exact E | exact Hlk' ].
    + exfalso.
      rewrite (node_at_top data), (node_at_link data Hkeys lk Hlk) in E.
      apply Hroot. apply in_map_iff. exists lk.
      split; [ exact E | exact Hlk ].
    + rewrite (node_at_link data Hkeys lk Hlk),
        (node_at_link data Hkeys lk' Hlk') in E.
      f_equal. exact (NoDup_map_eq l_child L lk lk' Hrest Hlk Hlk' E).
  - (* the nodes of the store are the nodes of the places *)
    intro n. split.
    + intro Hn. apply replay_nodes_from in Hn.
      destruct Hn as [[] | Hn].
      rewrite (emitted_container data Hcontainer Hkeys Hdistinct),
        node_intents_root in Hn.
      destruct Hn as [<- | Hn].
      * exists []. split; [ left; reflexivity | apply (node_at_top data) ].
      * apply in_map_iff in Hn. destruct Hn as [lk [<- Hlk]].
        exists (l_path lk). split; [ | apply (node_at_link data Hkeys); exact Hlk ].
        apply slot_cases. right. exists lk. split; [ exact Hlk | reflexivity ].
    + intros [p [Hp <-]].
      pose proof (replay_settles (emitted data) [] empty_store (Forall_nil _)
                                 (known_emitted data)) as H.
      rewrite Forall_forall in H.
      apply slot_cases in Hp. destruct Hp as [-> | [lk [Hlk <-]]].
      * rewrite (node_at_top data).
        apply (H root_intent). rewrite (emitted_container data Hcontainer Hkeys Hdistinct). left. reflexivity.
      * rewrite (node_at_link data Hkeys lk Hlk).
        assert (Hnode : In (NodeIntent (fst (l_child lk)) (snd (l_child lk)))
                           (emitted data)).
        { rewrite (emitted_container data Hcontainer Hkeys Hdistinct). right. unfold calls_of_links.
          apply in_flat_map. exists lk. split; [ exact Hlk | ].
          left. reflexivity. }
        apply H in Hnode. simpl in Hnode.
        destruct (l_child lk). exact Hnode.
  - apply (node_at_top data).
  - (* containment gives an edge *)
    intros p q [Hp [Hq [s Hs]]].
    apply slot_cases in Hq. destruct Hq as [-> | [lk [Hlk <-]]].
    { destruct p; discriminate. }
    destruct (parent_of_link data Hkeys lk Hlk) as [pp [s' [E [_ Hpar]]]].
    rewrite E in Hs. apply app_inj_tail in Hs. destruct Hs as [-> _].
    rewrite Hpar, (node_at_link data Hkeys lk Hlk).
    apply (link_edge_stored data Hcontainer Hkeys Hdistinct). exact Hlk.
  - (* an edge comes from containment *)
    intros e He. apply replay_edges_from in He.
    destruct He as [[] | [fl [fp [tl [tp [t [Hin ->]]]]]]].
    rewrite (emitted_container data Hcontainer Hkeys Hdistinct) in Hin. destruct Hin as [Hin | Hin];
      [ discriminate | ].
    unfold calls_of_links in Hin. apply in_flat_map in Hin.
    destruct Hin as [lk [Hlk [Hin | [Hin | []]]]]; [ discriminate | ].
    injection Hin as <- <- <- <- <-.
    destruct (parent_of_link data Hkeys lk Hlk) as [pp [s [E [Hpp Hpar]]]].
    exists pp, (l_path lk). split.
    + split; [ exact Hpp | split ].
      * apply slot_cases. right. exists lk. split; [ exact Hlk | reflexivity ].
      * exists s. exact E.
    + rewrite Hpar, (node_at_link data Hkeys lk Hlk).
      destruct (l_parent lk), (l_child lk). reflexivity.
Qed.

Lemma graph_isomorphic_when_distinct_witness :
  isomorphic
    (JDict [("a", JPrim (PInt 1)); ("b", JList [JPrim (PInt 2); JPrim (PInt 3)])])
    (graph_of
       (JDict [("a", JPrim (PInt 1));
               ("b", JList [JPrim (PInt 2); JPrim (PInt 3)])])).
Proof.
  apply graph_isomorphic_when_distinct.
  - reflexivity.
  - simpl. repeat split.
    repeat constructor; simpl; intuition discriminate.
  - vm_compute. repeat constructor; simpl; intuition discriminate.
Defined.

(* ===================================================================== *)
(** ** Several documents at once *)
(* ===================================================================== *)

Lemma interleaves_run {A : Type} (P : A -> Prop) (ls : list (list intent))
    (t : prog A) :
  interleaves P ls t ->
  forall w, exists a merged,
    P a /\ merges ls merged /\ run t w = (Returned a, submit_all merged w).
Proof.
  intro H. induction H as [a ls Ha Hls | i x l ls k Hnth _ IH | ls k _ IH];
    intro w.
  - exists a, []. split; [ exact Ha | split; [ | reflexivity ] ].
    apply merges_done. exact Hls.
  - cbn [run].
    destruct (perform (WriteTransaction x) w) as [r w'] eqn:E.
    destruct (IH r w') as [a [merged [Ha [Hm Hrun]]]].
    exists a, (x :: merged). split; [ exact Ha | split ].
    + apply (merges_take i x l ls merged Hnth Hm).
    + rewrite Hrun.
      change (submit_all (x :: merged) w)
        with (submit_all merged (snd (perform (WriteTransaction x) w))).
      rewrite E. reflexivity.
  - cbn [run perform]. apply IH.
Qed.

Lemma replace_nth_middle {A : Type} (l1 l2 : list A) (x y : A) :
  replace_nth (List.length l1) y (l1 ++ x :: l2) = l1 ++ y :: l2.
Proof.
  induction l1 as [| z l1 IH]; [ reflexivity | ].
  simpl. rewrite IH. reflexivity.
Qed.

Lemma nth_error_middle {A : Type} (l1 l2 : list A) (x : A) :
  nth_error (l1 ++ x :: l2) (List.length l1) = Some x.
Proof.
  induction l1 as [| z l1 IH]; [ reflexivity | exact IH ].
Qed.

(** A task run to its end among others that stand still. *)
Lemma interleaves_task {A B : Type} (Q : B -> Prop)
    (done rest : list (list intent)) (a : A) (l : list intent) (t : prog A)
    (f : A -> prog B) :
  behaves (eq a) l t ->
  interleaves Q (done ++ [] :: rest) (f a) ->
  interleaves Q (done ++ l :: rest) (bind t f).
Proof.
  intros Ht Hf. induction Ht as [a' Ha | x l k _ IH | l k _ IH]; cbn [bind].
  - subst a'. exact Hf.
  - apply (interleaves_write Q (List.length done) x l).
    + apply nth_error_middle.
    + intro r. rewrite replace_nth_middle. apply IH.
  - apply interleaves_read. exact IH.
Qed.

Lemma interleaves_then {A B : Type} (P : A -> Prop) (Q : B -> Prop)
    (g : A -> B) (ls : list (list intent)) (m : prog A) :
  (forall a, P a -> Q (g a)) ->
  interleaves P ls m ->
  interleaves Q ls (bind m (fun a => Ret (g a))).
Proof.
  intros Hg H.
  induction H as [a ls Ha Hls | i x l ls k Hnth _ IH | ls k _ IH]; cbn [bind].
  - apply interleaves_ret; [ apply Hg; exact Ha | exact Hls ].
  - apply (interleaves_write Q i x l); [ exact Hnth | exact IH ].
  - apply interleaves_read. exact IH.
Qed.

Lemma in_turn_interleaves {A : Type} (specs : list (A * list intent))
    (tasks : list (prog A)) :
  Forall2 meets specs tasks ->
  forall done,
    Forall (fun l => l = []) done ->
    interleaves (fun r => r = map fst specs) (done ++ map snd specs)
                (in_turn tasks).
Proof.
  intro H. induction H as [| [a l] t specs tasks Ht _ IH]; intros done Hdone.
  - cbn [in_turn map]. apply interleaves_ret; [ reflexivity | ].
    rewrite app_nil_r. exact Hdone.
  - cbn [in_turn map fst snd].
    apply (interleaves_task _ done (map snd specs) a l t); [ exact Ht | ].
    apply (interleaves_then (fun r => r = map fst specs)).
    + intros rest ->. reflexivity.
    + replace (done ++ [] :: map snd specs)
        with ((done ++ [[]]) ++ map snd specs)
        by (rewrite <- app_assoc; reflexivity).
      apply IH. apply Forall_app. split; [ exact Hdone | ].
      constructor; [ reflexivity | constructor ].
Qed.

Lemma Forall2_nth_error {A B : Type} (R : A -> B -> Prop) (l : list A)
    (l' : list B) :
  Forall2 R l l' ->
  forall i y, nth_error l' i = Some y ->
              exists x, nth_error l i = Some x /\ R x y.
Proof.
  intro H. induction H as [| x y l l' Hxy _ IH]; intros i z Hi.
  - destruct i; discriminate.
  - destruct i as [| i]; simpl in Hi.
    + injection Hi as <-. exists x. split; [ reflexivity | exact Hxy ].
    + exact (IH i z Hi).
Qed.

Lemma Forall2_replace_nth {A B : Type} (R : A -> B -> Prop) (l : list A)
    (l' : list B) (i : nat) (x : A) (y : B) :
  Forall2 R l l' -> R x y ->
  Forall2 R (replace_nth i x l) (replace_nth i y l').
Proof.
  intros H Hxy. revert i.
  induction H as [| a b l l' Hab Htl IH]; intro i.
  - destruct i; constructor.
  - destruct i as [| i]; simpl; constructor; auto.
Qed.

Lemma replace_nth_same {A : Type} (l : list A) :
  forall i x, nth_error l i = Some x -> replace_nth i x l = l.
Proof.
  induction l as [| y l IH]; intros i x H; [ destruct i; reflexivity | ].
  destruct i as [| i]; simpl in *.
  - injection H as ->. reflexivity.
  - rewrite (IH i x H). reflexivity.
Qed.

Lemma map_replace_nth {A B : Type} (g : A -> B) (l : list A) :
  forall i x, map g (replace_nth i x l) = replace_nth i (g x) (map g l).
Proof.
  induction l as [| y l IH]; intros i x; [ destruct i; reflexivity | ].
  destruct i as [| i]; simpl; [ reflexivity | rewrite IH; reflexivity ].
Qed.

(** However the tasks are taken forward, [gather] returns their results in
    the order of the tasks, and each task submits its own statements in its
    own order. *)
Lemma gather_interleaves {A : Type} (schedule : list nat) :
  forall (specs : list (A * list intent)) (tasks : list (prog A)),
    Forall2 meets specs tasks ->
    interleaves (fun r => r = map fst specs) (map snd specs)
                (gather schedule tasks).
Proof.
  induction schedule as [| i schedule IH]; intros specs tasks H.
  - cbn [gather]. apply (in_turn_interleaves specs tasks H []). constructor.
  - cbn [gather].
    destruct (nth_error tasks i) as [[a | e | c k] |] eqn:E;
      try (apply IH; exact H).
    destruct (Forall2_nth_error _ _ _ H i _ E) as [[a l] [Hspec Ht]].
    unfold meets in Ht. cbn [fst snd] in Ht.
    inversion Ht as [| x l' k' Hk | l' k' Hk]; subst.
    + apply (interleaves_write _ i x l').
      * rewrite nth_error_map, Hspec. reflexivity.
      * intro r.
        pose proof (IH (replace_nth i (a, l') specs)
                       (replace_nth i (k r) tasks)) as IH'.
        rewrite !map_replace_nth in IH'. cbn [fst snd] in IH'.
        rewrite (replace_nth_same (map fst specs) i a) in IH'
          by (rewrite nth_error_map, Hspec; reflexivity).
        apply IH'. apply Forall2_replace_nth; [ exact H | apply Hk ].
    + apply interleaves_read.
      pose proof (IH (replace_nth i (a, l) specs)
                     (replace_nth i (k (Returned tt)) tasks)) as IH'.
      rewrite (replace_nth_same specs i (a, l) Hspec) in IH'.
      apply IH'.
      rewrite <- (replace_nth_same specs i (a, l) Hspec) at 1.
      apply Forall2_replace_nth; [ exact H | exact Hk ].
Qed.

Lemma read_file_behaves (path : string * fs_entry) :
  behaves (eq (match snd path with
               | Directory _ => IOFailure OSError
               | BinaryFile _ => IOFailure UnicodeDecodeError
               | RegularFile contents => IOSuccess contents
               end)) [] (read_file path).
Proof.
  unfold read_file, await.
  destruct (snd path) as [contents | bytes | entries];
    cbn [bind future_safe]; repeat (apply behaves_read; cbn [bind future_safe]);
    apply behaves_ret; reflexivity.
Qed.

Lemma behaves_bind_ret {A B : Type} (P : A -> Prop) (Q : B -> Prop)
    (g : A -> B) (l : list intent) (m : prog A) :
  behaves P l m ->
  (forall a, P a -> Q (g a)) ->
  behaves Q l (bind m (fun a => Ret (g a))).
Proof.
  intros Hm Hg. induction Hm as [a Ha | i l k _ IH | l k _ IH]; cbn [bind].
  - apply behaves_ret. apply Hg. exact Ha.
  - apply behaves_write. exact IH.
  - apply behaves_read. exact IH.
Qed.

Lemma json_parsing_pipeline_behaves (json_loads : string -> option json)
    (path : string * fs_entry) :
  behaves (eq (match snd path with
               | Directory _ => IOFailure OSError
               | BinaryFile _ => IOFailure UnicodeDecodeError
               | RegularFile contents =>
                   match json_loads contents with
                   | Some v => IOSuccess v
                   | None => IOFailure JSONDecodeError
                   end
               end)) [] (json_parsing_pipeline json_loads path).
Proof.
  unfold json_parsing_pipeline, bind_result.
  apply (behaves_bind_ret _ _ _ _ _ (read_file_behaves path)).
  intros r <-. unfold parse_json.
  destruct (snd path) as [contents | bytes | entries];
    [ | reflexivity | reflexivity ].
  destruct (json_loads contents); reflexivity.
Qed.

Lemma process_file_behaves (json_loads : string -> option json)
    (file_path : string * fs_entry) :
  meets (file_result json_loads (snd file_path),
         file_script json_loads (snd file_path))
        (process_file json_loads file_path process_json).
Proof.
  unfold meets, process_file. cbn [fst snd].
  apply (behaves_bind_ret (eq (file_result json_loads (snd file_path))) _
                          (fun r => r));
    [ | intros a <-; reflexivity ].
  unfold bind_awaitable.
  apply (behaves_bind _ _ [] _ _ _
                      (json_parsing_pipeline_behaves json_loads file_path)).
  intros r <-. unfold file_result, file_script.
  destruct (snd file_path) as [contents | bytes | entries];
    [ | apply behaves_ret; reflexivity | apply behaves_ret; reflexivity ].
  destruct (json_loads contents) as [v | ];
    [ | apply behaves_ret; reflexivity ].
  rewrite emitted_walk.
  apply (behaves_bind_ret _ _ _ _ _ (process_json_behaves v)).
  intros b ->. reflexivity.
Qed.

Lemma process_directory_interleaves (json_loads : string -> option json)
    (schedule : list nat) (data_directory : list (string * fs_entry)) :
  interleaves
    (fun r => r = map (fun f => file_result json_loads (snd f))
                      (glob data_directory "*.json"))
    (map (fun f => file_script json_loads (snd f))
         (glob data_directory "*.json"))
    (process_directory json_loads schedule data_directory process_json).
Proof.
  unfold process_directory.
  set (files := glob data_directory "*.json").
  pose proof (gather_interleaves schedule
                (map (fun f => (file_result json_loads (snd f),
                                file_script json_loads (snd f))) files)
                (map (fun f => process_file json_loads f process_json) files))
    as H.
  rewrite !map_map in H. cbn [fst snd] in H.
  apply (interleaves_then
           (fun r => r = map (fun f => file_result json_loads (snd f)) files)
           _ (fun r => r)); [ intros a ->; reflexivity | ].
  apply H. clear H.
  induction files as [| f files IH]; constructor; [ | exact IH ].
  apply process_file_behaves.
Qed.

(** However the tasks are scheduled and whatever the store rejects: one
    result for each selected file, in the order of the files, and the
    statements of the documents that parsed, each in its own order. *)
Lemma process_directory_results (json_loads : string -> option json)
    (schedule : list nat) (data_directory : list (string * fs_entry))
    (w : world) :
  exists merged,
    run (process_directory json_loads schedule data_directory process_json) w
    = (Returned (map (fun f => file_result json_loads (snd f))
                     (glob data_directory "*.json")),
       submit_all merged w)
    /\ merges (map (fun f => file_script json_loads (snd f))
                   (glob data_directory "*.json")) merged.
Proof.
  destruct (interleaves_run _ _ _
              (process_directory_interleaves json_loads schedule data_directory)
              w) as [a [merged [-> [Hm Hrun]]]].
  exists merged. split; [ exact Hrun | exact Hm ].
Qed.

(** C4.  For every directory, every order in which [gather] takes the
    tasks forward and whatever the store rejects, [process_directory]
    returns one result for each selected file, in the order of the files:
    the result at a position is that of the file at this position alone, a
    success exactly when the file is text that parses.  The statements
    submitted are those of the documents, each document's statements in
    their own order.  A file [k] whose text is not JSON gives the failure
    [JSONDecodeError] at position [k] and adds no statement; when all the
    other files are JSON text, the results are this one failure and a
    success at every other position. *)
Theorem one_result_per_document (json_loads : string -> option json)
    (schedule : list nat) (data_directory : list (string * fs_entry))
    (w : world) :
  let files := glob data_directory "*.json" in
  let scripts := map (fun f => file_script json_loads (snd f)) files in
  exists results merged,
    run (process_directory json_loads schedule data_directory process_json) w
    = (Returned results, submit_all merged w)
    /\ List.length results = List.length files
    /\ (forall j f,
           nth_error files j = Some f ->
           nth_error results j = Some (file_result json_loads (snd f))
           /\ (nth_error results j = Some (IOSuccess (IOSuccess tt)) <->
               exists contents v,
                 snd f = RegularFile contents
                 /\ json_loads contents = Some v))
    /\ merges scripts merged
    /\ (forall k name contents,
           nth_error files k = Some (name, RegularFile contents) ->
           json_loads contents = None ->
           nth_error results k = Some (IOFailure JSONDecodeError)
           /\ nth_error scripts k = Some []
           /\ ((forall j f,
                   j <> k -> nth_error files j = Some f ->
                   exists contents' v,
                     snd f = RegularFile contents'
                     /\ json_loads contents' = Some v) ->
               results
               = map (fun j => if Nat.eqb j k then IOFailure JSONDecodeError
                               else IOSuccess (IOSuccess tt))
                     (seq 0 (List.length files)))).
Proof.
  cbn zeta.
  destruct (process_directory_results json_loads schedule data_directory w)
    as [merged [Hrun Hm]].
  set (files := glob data_directory "*.json") in *.
  exists (map (fun f => file_result json_loads (snd f)) files), merged.
  split; [ exact Hrun | split; [ apply length_map | split; [ | split ] ] ].
  - intros j f Hj. rewrite nth_error_map, Hj. cbn [option_map].
    split; [ reflexivity | ]. split.
    + intro E. injection E as E. unfold file_result in E.
      destruct (snd f) as [contents | bytes | entries]; try discriminate.
      destruct (json_loads contents) as [v | ] eqn:Ev; [ | discriminate ].
      exists contents, v. split; [ reflexivity | exact Ev ].
    + intros [contents [v [-> Ev]]]. cbn [file_result]. rewrite Ev.
      reflexivity.
  - exact Hm.
  - intros k name contents Hk Hbad. split; [ | split ].
    + rewrite nth_error_map, Hk. cbn [option_map snd file_result].
      rewrite Hbad. reflexivity.
    + rewrite nth_error_map, Hk. cbn [option_map snd file_script].
      rewrite Hbad. reflexivity.
    + intro Hothers. apply nth_error_ext. intro j.
      rewrite !nth_error_map, nth_error_seq. cbn [Nat.add].
      destruct (nth_error files j) as [f | ] eqn:Ej.
      * assert (Hlt : j < List.length files).
        { apply nth_error_Some. rewrite Ej. discriminate. }
        apply Nat.ltb_lt in Hlt. rewrite Hlt. cbn [option_map]. f_equal.
        destruct (Nat.eqb_spec j k) as [-> | Hjk].
        -- rewrite Hk in Ej. injection Ej as <-. cbn [snd file_result].
           rewrite Hbad. reflexivity.
        -- destruct (Hothers j f Hjk Ej) as [c [v [Ec Ev]]].
           rewrite Ec. cbn [file_result]. rewrite Ev. reflexivity.
      * assert (Hge : ~ j < List.length files).
        { apply nth_error_None in Ej. lia. }
        apply Nat.ltb_nlt in Hge. rewrite Hge. reflexivity.
Qed.

(** The batch [a.json], [b.json] (not JSON), [c.json], with a file that is
    not selected between them: the results are a success, the failure, a
    success. *)
Lemma one_result_per_document_witness :
  let json_loads :=
    fun text : string =>
      if String.eqb text "1" then Some (JPrim (PInt 1)) else None in
  let data_directory :=
    [("a.json", RegularFile "1"); ("notes.txt", RegularFile "1");
     ("b.json", RegularFile "{"); ("c.json", RegularFile "1")] in
  fst (run (process_directory json_loads [2; 0; 1; 0] data_directory
                              process_json)
           (world_of empty_store []))
  = Returned [IOSuccess (IOSuccess tt); IOFailure JSONDecodeError;
              IOSuccess (IOSuccess tt)].
Proof.
  intros json_loads data_directory.
  destruct (one_result_per_document json_loads [2; 0; 1; 0] data_directory
                                    (world_of empty_store []))
    as [results [merged [Hrun [_ [_ [_ Hk]]]]]].
  destruct (Hk 1 "b.json" "{" eq_refl eq_refl) as [_ [_ Hall]].
  rewrite Hrun. cbn [fst]. rewrite Hall; [ reflexivity | ].
  intros j f Hj Hf.
  destruct j as [| [| [| j]]].
  - vm_compute in Hf. injection Hf as <-.
    exists "1", (JPrim (PInt 1)). split; reflexivity.
  - exfalso. apply Hj. reflexivity.
  - vm_compute in Hf. injection Hf as <-.
    exists "1", (JPrim (PInt 1)). split; reflexivity.
  - destruct j; vm_compute in Hf; discriminate.
Defined.

(* ===================================================================== *)
(** ** Which files are taken *)
(* ===================================================================== *)

Lemma fnmatch_plain (pattern : string) :
  plain pattern = true ->
  forall name, fnmatch pattern name = true <-> name = pattern.
Proof.
  induction pattern as [| c pattern IH]; intros Hplain name.
  - destruct name; simpl; split; congruence.
  - simpl in Hplain. apply andb_prop in Hplain. destruct Hplain as [Hc Hp].
    apply andb_prop in Hc. destruct Hc as [Hstar Hany].
    apply negb_true_iff in Hstar. apply negb_true_iff in Hany.
    cbn [fnmatch]. rewrite Hstar.
    destruct name as [| d name]; [ split; congruence | ].
    rewrite Hany. cbn [orb]. rewrite andb_true_iff, Ascii.eqb_eq, (IH Hp).
    split; [ intros [-> ->]; reflexivity | intro E; injection E as -> -> ].
    split; reflexivity.
Qed.

Lemma fnmatch_star (pattern name : string) :
  fnmatch (String "*" pattern) name =
  fnmatch pattern name
  || match name with
     | EmptyString => false
     | String _ name' => fnmatch (String "*" pattern) name'
     end.
Proof.
  destruct name; reflexivity.
Qed.

(** [*.json] takes the names that end in [.json], and no other. *)
Lemma fnmatch_json (name : string) :
  fnmatch "*.json" name = true <-> exists stem, name = append stem ".json".
Proof.
  induction name as [| c name IH].
  - split; [ discriminate | ]. intros [stem E]. destruct stem; discriminate.
  - rewrite fnmatch_star, orb_true_iff, IH.
    rewrite (fnmatch_plain ".json" eq_refl). split.
    + intros [-> | [stem ->]].
      * exists EmptyString. reflexivity.
      * exists (String c stem). reflexivity.
    + intros [stem E]. destruct stem as [| d stem]; simpl in E.
      * left. exact E.
      * right. injection E as _ ->. exists stem. reflexivity.
Qed.

(** C10.  The files taken from a directory are the entries of the directory
    itself whose name ends in [.json], in the order of the directory;
    nothing is taken from below a subdirectory.  The result sequence has one
    entry for each file taken, in that order, and none for any other
    entry, whatever the schedule and whatever the store rejects. *)
Theorem directory_selection (json_loads : string -> option json)
    (schedule : list nat) (data_directory : list (string * fs_entry))
    (w : world) :
  (forall name entry,
      In (name, entry) (glob data_directory "*.json") <->
      In (name, entry) data_directory
      /\ exists stem, name = append stem ".json")
  /\ glob data_directory "*.json"
     = filter (fun ne => fnmatch "*.json" (fst ne)) data_directory
  /\ fst (run (process_directory json_loads schedule data_directory
                                 process_json) w)
     = Returned (map (fun f => file_result json_loads (snd f))
                     (glob data_directory "*.json")).
Proof.
  split; [ | split; [ reflexivity | ] ].
  - intros name entry. unfold glob. rewrite filter_In. cbn [fst].
    rewrite fnmatch_json. reflexivity.
  - destruct (process_directory_results json_loads schedule data_directory w)
      as [merged [-> _]].
    reflexivity.
Qed.

(* ===================================================================== *)
(** ** The projection *)
(* ===================================================================== *)

Lemma remove_not_in (name : string) (cat : list string) :
  ~ In name (remove string_dec name cat).
Proof. apply remove_In. Qed.

(** C9.  [project_graph_in_gds] always submits the drop of the name and
    then the creation, whatever fails.  When the drop raises, the failure is
    logged and the result is that of the creation alone: a success when the
    name is free.  When nothing fails the result is a success and the name
    is in the catalog afterwards, whether it was there before or not. *)
Theorem projection_reentrant (name : string) (s : store) (cat : list string)
    (wr : list intent) (rn : list gds_call) (lg : list log_line)
    (fs : list bool) :
  ran (snd (run (project_graph_in_gds name) (mkWorld s cat wr rn lg fs)))
  = rn ++ [GdsDrop name; GdsProject name]
  /\ (let r := run (project_graph_in_gds name)
                   (mkWorld s cat wr rn lg (true :: false :: fs)) in
      fst r = Returned (if in_dec string_dec name cat
                        then IOFailure Neo4jError else IOSuccess tt)
      /\ logged (snd r)
         = lg ++ [DropFailed name; Projecting name]
              ++ (if in_dec string_dec name cat then [] else [Projected name]))
  /\ (let r := run (project_graph_in_gds name) (mkWorld s cat wr rn lg []) in
      fst r = Returned (IOSuccess tt)
      /\ In name (catalog (snd r))
      /\ logged (snd r)
         = lg ++ [DroppedExisting name; Projecting name; Projected name]).
Proof.
  split; [ | split ].
  - unfold project_graph_in_gds, await.
    cbn [bind future_safe try_except run perform faults ran catalog logged db
         written run_gds].
    destruct fs as [| [|] fs];
      cbn [bind future_safe try_except run perform faults ran catalog logged
           db written run_gds tl];
      repeat match goal with
             | |- context [match ?fs with [] => _ | _ :: _ => _ end] =>
                 destruct fs as [| [|] ?]
             | |- context [in_dec string_dec ?a ?b] =>
                 destruct (in_dec string_dec a b)
             end;
      cbn [bind future_safe try_except run perform faults ran catalog logged
           db written run_gds tl fst snd];
      rewrite <- ?app_assoc; reflexivity.
  - unfold project_graph_in_gds, await.
    cbn [bind future_safe try_except run perform faults ran catalog logged db
         written run_gds tl fst snd].
    destruct (in_dec string_dec name cat);
      cbn [bind future_safe try_except run perform faults ran catalog logged
           db written run_gds tl fst snd];
      rewrite <- ?app_assoc; split; reflexivity.
  - unfold project_graph_in_gds, await.
    cbn [bind future_safe try_except run perform faults ran catalog logged db
         written run_gds tl fst snd].
    destruct (in_dec string_dec name (remove string_dec name cat)) as [Hin | _].
    + exfalso. exact (remove_not_in name cat Hin).
    + cbn [bind future_safe try_except run perform faults ran catalog logged
           db written run_gds tl fst snd].
      rewrite <- !app_assoc. repeat split. left. reflexivity.
Qed.

(* ===================================================================== *)
(** * Further properties of the loader *)
(* ===================================================================== *)

(* ===================================================================== *)
(** ** What a run costs and what it reports *)
(* ===================================================================== *)

Lemma faults_submit_all (l : list intent) (w : world) :
  faults (submit_all l w) = skipn (List.length l) (faults w).
Proof.
  revert w. induction l as [| i l IH]; intro w; [ reflexivity | ].
  change (submit_all (i :: l) w) with (submit_all l (submit w i)).
  rewrite IH. unfold submit. cbn [perform snd].
  destruct (faults w) as [| [|] fs]; cbn [snd faults List.length skipn tl];
    try reflexivity.
  destruct (List.length l); reflexivity.
Qed.





(** X2.  Whatever the store rejects, [process_json] returns a success; it
    makes one call on the session for each of its statements (each takes the
    next fault, rejected or not), and it makes no call on the catalog of
    projections. *)
Theorem process_json_reports_success (data : json) (w : world) :
  fst (run (process_json data) w) = Returned (IOSuccess tt)
  /\ faults (snd (run (process_json data) w))
     = skipn (List.length (emitted data)) (faults w)
  /\ catalog (snd (run (process_json data) w)) = catalog w
  /\ ran (snd (run (process_json data) w)) = ran w.
Proof.
  rewrite run_process_json, <- emitted_walk. cbn [fst snd].
  split; [ reflexivity | split; [ apply faults_submit_all | ] ].
  generalize (emitted data). intro l. revert w.
  induction l as [| i l IH]; intro w; [ repeat split | ].
  change (submit_all (i :: l) w) with (submit_all l (submit w i)).
  destruct (IH (submit w i)) as [Hc Hr]. rewrite Hc, Hr.
  unfold submit. cbn [perform].
  destruct (faults w) as [| [|] fs]; repeat split.
Qed.

Lemma submit_nodes (w : world) (i : intent) (n : node) :
  In n (nodes (db w)) -> In n (nodes (db (submit w i))).
Proof.
  intro H. unfold submit. cbn [perform].
  destruct (faults w) as [| [|] fs]; cbn [snd db];
    try (apply apply_intent_nodes); exact H.
Qed.

Lemma submit_edges (w : world) (i : intent) (e : edge) :
  In e (edges (db w)) -> In e (edges (db (submit w i))).
Proof.
  intro H. unfold submit. cbn [perform].
  destruct (faults w) as [| [|] fs]; cbn [snd db];
    try (apply apply_intent_edges); exact H.
Qed.

(* ===================================================================== *)
(** ** The statements, place by place *)
(* ===================================================================== *)

Lemma in_enumerate_nth {A : Type} (l : list A) :
  forall start idx x,
    In (idx, x) (enumerate_from start l) <->
    start <= idx /\ nth_error l (idx - start) = Some x.
Proof.
  induction l as [| y l IH]; intros start idx x.
  - split; [ intros [] | ]. intros [_ H]. destruct (idx - start); discriminate.
  - cbn [enumerate_from In]. rewrite IH. split.
    + intros [E | [Hle H]].
      * injection E as -> ->. rewrite Nat.sub_diag. split; [ lia | reflexivity ].
      * split; [ lia | ].
        replace (idx - start) with (S (idx - S start)) by lia. exact H.
    + intros [Hle H]. destruct (idx - start) as [| m] eqn:E.
      * left. injection H as ->. f_equal. lia.
      * right. split; [ lia | ].
        replace (idx - S start) with m by lia. exact H.
Qed.

Lemma in_enumerate {A : Type} (l : list A) (idx : nat) (x : A) :
  In (idx, x) (enumerate l) <-> nth_error l idx = Some x.
Proof.
  unfold enumerate. rewrite in_enumerate_nth, Nat.sub_0_r.
  split; [ intros [_ H]; exact H | intro H; split; [ lia | exact H ] ].
Qed.

Lemma label_after_cons (label : string) (s : step) (q : path) :
  label_after label (s :: q) = label_after (label_after label [s]) q.
Proof. reflexivity. Qed.

Lemma dict_child_place (key : string) (value : json) (label : string) :
  dict_child (key, value)
  = (label_after label [Key key], properties_of (Key key) value).
Proof. destruct value; reflexivity. Qed.

Lemma list_child_place (idx : nat) (item : json) (label : string) :
  list_child label (idx, item)
  = (label_after label [Idx idx], properties_of (Idx idx) item).
Proof. destruct item; reflexivity. Qed.

Lemma container_node_cons (top : node) (s : step) (q : path) (v : json) :
  is_primitive v = false ->
  container_node (label_after (fst top) [s], properties_of s v) q
  = container_node top (s :: q).
Proof.
  intro Hv. unfold container_node. cbn [rev fst].
  destruct (rev q) as [| s' r] eqn:E; cbn [app].
  - apply (f_equal (@rev step)) in E. rewrite rev_involutive in E. subst q.
    destruct v; [ discriminate | reflexivity | reflexivity ].
  - reflexivity.
Qed.

(** Every link of the walk is a place of the document, with the label and
    the properties that its path and its value give. *)
Lemma visit_describes (v : json) :
  forall p top lk,
    In lk (visit p top v) ->
    exists q s sub,
      l_path lk = p ++ q ++ [s]
      /\ at_place v (q ++ [s]) sub
      /\ l_child lk = (label_after (fst top) (q ++ [s]), properties_of s sub)
      /\ l_parent lk = container_node top q.
Proof.
  induction v as [x | elements IH | items IH] using json_ind;
    intros p top lk Hin.
  - contradiction.
  - rewrite visit_list in Hin. apply in_app_or in Hin.
    destruct Hin as [Hin | Hin].
    + apply in_map_iff in Hin. destruct Hin as [[idx item] [<- Hin]].
      exists [], (Idx idx), item. cbn [l_path l_child l_parent fst snd app].
      split; [ reflexivity | split; [ | split; [ | reflexivity ] ] ].
      * apply (at_index elements idx item [] item);
          [ apply in_enumerate; exact Hin | apply at_top ].
      * apply list_child_place.
    + apply in_flat_map in Hin. destruct Hin as [[idx item] [Hix Hin]].
      apply in_rev in Hix. cbn [fst snd] in Hin.
      rewrite Forall_forall in IH.
      destruct (IH item (in_enumerate_from _ _ _ _ Hix) _ _ _ Hin)
        as [q [s [sub [Hp [Hat [Hc Hpar]]]]]].
      exists (Idx idx :: q), s, sub. split; [ | split; [ | split ] ].
      * rewrite Hp, <- !app_assoc. reflexivity.
      * apply (at_index elements idx item (q ++ [s]) sub);
          [ apply in_enumerate; exact Hix | exact Hat ].
      * rewrite Hc, (list_child_place idx item (fst top)). reflexivity.
      * rewrite Hpar, (list_child_place idx item (fst top)).
        apply container_node_cons.
        destruct item; [ inversion Hat; destruct q; discriminate | | ];
          reflexivity.
  - rewrite visit_dict in Hin. apply in_app_or in Hin.
    destruct Hin as [Hin | Hin].
    + apply in_map_iff in Hin. destruct Hin as [[key value] [<- Hin]].
      exists [], (Key key), value. cbn [l_path l_child l_parent fst snd app].
      split; [ reflexivity | split; [ | split; [ | reflexivity ] ] ].
      * apply (at_key items key value [] value); [ exact Hin | apply at_top ].
      * apply dict_child_place.
    + apply in_flat_map in Hin. destruct Hin as [[key value] [Hkv Hin]].
      apply in_rev in Hkv. cbn [fst snd] in Hin.
      rewrite Forall_forall in IH.
      destruct (IH (key, value) Hkv _ _ _ Hin)
        as [q [s [sub [Hp [Hat [Hc Hpar]]]]]].
      exists (Key key :: q), s, sub. split; [ | split; [ | split ] ].
      * rewrite Hp, <- !app_assoc. reflexivity.
      * apply (at_key items key value (q ++ [s]) sub); assumption.
      * rewrite Hc, (dict_child_place key value (fst top)). reflexivity.
      * rewrite Hpar, (dict_child_place key value (fst top)).
        apply container_node_cons.
        destruct value; [ inversion Hat; destruct q; discriminate | | ];
          reflexivity.
Qed.

(** Every place below the top of the document has a link in the walk. *)
Lemma visit_covers (v : json) (path0 : path) (sub : json) :
  at_place v path0 sub ->
  forall q s, path0 = q ++ [s] ->
  forall p top,
    exists lk,
      In lk (visit p top v)
      /\ l_path lk = p ++ path0
      /\ l_child lk = (label_after (fst top) path0, properties_of s sub)
      /\ l_parent lk = container_node top q.
Proof.
  intro Hat.
  induction Hat as [v | items key value q0 sub Hin Hat IH
                      | elements idx item q0 sub Hnth Hat IH];
    intros q s E p top.
  - destruct q; discriminate.
  - destruct q as [| s0 q]; cbn [app] in E; injection E as E0 E.
    + subst s q0. inversion Hat; subst.
      exists (mkLink (p ++ [Key key]) top (dict_child (key, sub))).
      split; [ | split; [ reflexivity | split; [ | reflexivity ] ] ].
      * rewrite visit_dict. apply in_or_app. left.
        apply (in_map (fun kv => mkLink (p ++ [Key (fst kv)]) top
                                        (dict_child kv)) _ (key, sub) Hin).
      * apply dict_child_place.
    + subst s0 q0.
      destruct (IH q s eq_refl (p ++ [Key key]) (dict_child (key, value)))
        as [lk [Hlk [Hp [Hc Hpar]]]].
      exists lk. split; [ | split; [ | split ] ].
      * rewrite visit_dict. apply in_or_app. right. apply in_flat_map.
        exists (key, value). split; [ | exact Hlk ].
        rewrite <- in_rev. exact Hin.
      * rewrite Hp, <- app_assoc. reflexivity.
      * rewrite Hc, (dict_child_place key value (fst top)). reflexivity.
      * rewrite Hpar, (dict_child_place key value (fst top)).
        apply container_node_cons.
        destruct value; [ inversion Hat; destruct q; discriminate | | ];
          reflexivity.
  - destruct q as [| s0 q]; cbn [app] in E; injection E as E0 E.
    + subst s q0. inversion Hat; subst.
      exists (mkLink (p ++ [Idx idx]) top (list_child (fst top) (idx, sub))).
      split; [ | split; [ reflexivity | split; [ | reflexivity ] ] ].
      * rewrite visit_list. apply in_or_app. left.
        apply (in_map (fun ix => mkLink (p ++ [Idx (fst ix)]) top
                                        (list_child (fst top) ix))
                      _ (idx, sub)).
        apply in_enumerate. exact Hnth.
      * apply list_child_place.
    + subst s0 q0.
      destruct (IH q s eq_refl (p ++ [Idx idx])
                   (list_child (fst top) (idx, item)))
        as [lk [Hlk [Hp [Hc Hpar]]]].
      exists lk. split; [ | split; [ | split ] ].
      * rewrite visit_list. apply in_or_app. right. apply in_flat_map.
        exists (idx, item). split; [ | exact Hlk ].
        rewrite <- in_rev. apply in_enumerate. exact Hnth.
      * rewrite Hp, <- app_assoc. reflexivity.
      * rewrite Hc, (list_child_place idx item (fst top)). reflexivity.
      * rewrite Hpar, (list_child_place idx item (fst top)).
        apply container_node_cons.
        destruct item; [ inversion Hat; destruct q; discriminate | | ];
          reflexivity.
Qed.

Lemma in_calls_node (L : list link) (lb : string) (pr : props) :
  In (NodeIntent lb pr) (calls_of_links L) <->
  exists lk, In lk L /\ l_child lk = (lb, pr).
Proof.
  unfold calls_of_links. rewrite in_flat_map. split.
  - intros [lk [Hlk [E | [E | []]]]]; [ | discriminate ].
    injection E as <- <-. exists lk. split; [ exact Hlk | ].
    destruct (l_child lk). reflexivity.
  - intros [lk [Hlk E]]. exists lk. split; [ exact Hlk | ].
    left. rewrite E. reflexivity.
Qed.

Lemma in_calls_rel (L : list link) (fl : string) (fp : props) (tl : string)
    (tp : props) (t : string) :
  In (RelIntent fl fp tl tp t) (calls_of_links L) <->
  t = "HAS"
  /\ exists lk, In lk L /\ l_parent lk = (fl, fp) /\ l_child lk = (tl, tp).
Proof.
  unfold calls_of_links. rewrite in_flat_map. split.
  - intros [lk [Hlk [E | [E | []]]]]; [ discriminate | ].
    injection E as <- <- <- <- <-. split; [ reflexivity | ].
    exists lk. split; [ exact Hlk | ].
    destruct (l_parent lk), (l_child lk). split; reflexivity.
  - intros [-> [lk [Hlk [E1 E2]]]]. exists lk. split; [ exact Hlk | ].
    right. left. rewrite E1, E2. reflexivity.
Qed.

(** X4.  The node statements of a document are the Root statement, its
    second form when the document is a bare primitive, and one statement
    for each key and each array slot at any depth.  The label of that
    statement is the capitalized last key of the path followed by one
    ["Item"] for each index after it (from ["Root"] when the path has no
    key); its properties are [name] (the key as written) or [index], and
    [value] exactly when the value at that place is a primitive, which is
    then the value of the property. *)
Theorem node_statements_are_places (data : json) (lb : string) (pr : props) :
  In (NodeIntent lb pr) (emitted data) <->
  (lb, pr) = root_node
  \/ (exists p, data = JPrim p
                /\ (lb, pr) = ("Root", [("name", PStr "root"); ("value", p)]))
  \/ (exists q s sub,
         at_place data (q ++ [s]) sub
         /\ lb = label_after "Root" (q ++ [s])
         /\ pr = properties_of s sub).
Proof.
  rewrite emitted_shape. cbn [In]. rewrite in_app_iff, in_calls_node.
  split.
  - intros [E | [H | [lk [Hlk E]]]].
    + left. injection E as <- <-. reflexivity.
    + right. left. destruct data as [p | | ]; try contradiction.
      destruct H as [E | []]. injection E as <- <-.
      exists p. split; reflexivity.
    + right. right.
      destruct (visit_describes data [] root_node lk Hlk)
        as [q [s [sub [_ [Hat [Hc _]]]]]].
      rewrite Hc in E. injection E as <- <-.
      exists q, s, sub. repeat split. exact Hat.
  - intros [E | [[p [-> E]] | [q [s [sub [Hat [-> ->]]]]]]].
    + left. injection E as -> ->. reflexivity.
    + right. left. injection E as -> ->. left. reflexivity.
    + right. right.
      destruct (visit_covers data (q ++ [s]) sub Hat q s eq_refl [] root_node)
        as [lk [Hlk [_ [Hc _]]]].
      exists lk. split; [ exact Hlk | exact Hc ].
Qed.

(** X5.  The relationship statements of a document are, for each key and
    each array slot at any depth, one statement of type ["HAS"] from the
    node of the container that holds the place (the Root node at the top)
    to the node of the place; there is no other. *)
Theorem relationships_are_containments (data : json) (fl : string)
    (fp : props) (tl : string) (tp : props) (t : string) :
  In (RelIntent fl fp tl tp t) (emitted data) <->
  t = "HAS"
  /\ exists q s sub,
       at_place data (q ++ [s]) sub
       /\ (fl, fp) = container_node root_node q
       /\ (tl, tp) = (label_after "Root" (q ++ [s]), properties_of s sub).
Proof.
  rewrite emitted_shape. cbn [In]. rewrite in_app_iff, in_calls_rel.
  split.
  - intros [E | [H | [-> [lk [Hlk [E1 E2]]]]]].
    + discriminate.
    + destruct data as [p | | ]; try contradiction.
      destruct H as [E | []]. discriminate.
    + split; [ reflexivity | ].
      destruct (visit_describes data [] root_node lk Hlk)
        as [q [s [sub [_ [Hat [Hc Hpar]]]]]].
      exists q, s, sub. split; [ exact Hat | ].
      split; [ rewrite <- E1; exact Hpar | rewrite <- E2; exact Hc ].
  - intros [-> [q [s [sub [Hat [E1 E2]]]]]]. right. right.
    split; [ reflexivity | ].
    destruct (visit_covers data (q ++ [s]) sub Hat q s eq_refl [] root_node)
      as [lk [Hlk [_ [Hc Hpar]]]].
    exists lk. split; [ exact Hlk | ].
    rewrite Hpar, Hc, E1, E2. split; reflexivity.
Qed.

(* ===================================================================== *)
(** ** When two places share a node *)
(* ===================================================================== *)

Lemma length_append (a b : string) :
  String.length (append a b) = String.length a + String.length b.
Proof. induction a as [| c a IH]; [ reflexivity | ]. simpl. rewrite IH. reflexivity. Qed.

Lemma append_inj_l (s : string) :
  forall a b, append a s = append b s -> a = b.
Proof.
  induction a as [| c a IH]; intros [| d b] E.
  - reflexivity.
  - apply (f_equal String.length) in E. simpl in E.
    rewrite length_append in E. lia.
  - apply (f_equal String.length) in E. simpl in E.
    rewrite length_append in E. lia.
  - simpl in E. injection E as <- E. f_equal. apply IH. exact E.
Qed.

(** X6.  Two places of a document (or of two documents) are given the same
    node exactly when their last steps are equal (the same key, or the same
    index under arrays with the same label) and their values are the same
    primitive or are both containers.  So two entries of one object or of
    one array never share a node, while places with equal keys at different
    depths do when their values agree in this way. *)
Theorem places_merge (q1 q2 : path) (s1 s2 : step) (sub1 sub2 : json) :
  (label_after "Root" (q1 ++ [s1]), properties_of s1 sub1)
  = (label_after "Root" (q2 ++ [s2]), properties_of s2 sub2)
  <-> s1 = s2
      /\ same_content sub1 sub2
      /\ match s1 with
         | Key _ => True
         | Idx _ => label_after "Root" q1 = label_after "Root" q2
         end.
Proof.
  unfold label_after. rewrite !fold_left_app. cbn [fold_left]. split.
  - intro E. injection E as El Ep.
    assert (Es : s1 = s2 /\ same_content sub1 sub2).
    { destruct s1 as [k1 | i1], s2 as [k2 | i2], sub1, sub2;
        cbn [properties_of app same_content] in Ep |- *;
        try discriminate; injection Ep; intros; subst;
        repeat match goal with
               | H : Z.of_nat _ = Z.of_nat _ |- _ =>
                   apply Nat2Z.inj in H; subst
               end;
        split; (reflexivity || exact I). }
    destruct Es as [<- Hc]. split; [ reflexivity | split; [ exact Hc | ] ].
    destruct s1 as [k | i]; [ exact I | ].
    apply append_inj_l in El. exact El.
  - intros [<- [Hc Hl]].
    assert (Ep : properties_of s1 sub1 = properties_of s1 sub2).
    { destruct sub1, sub2; cbn [same_content] in Hc;
        try contradiction; try reflexivity.
      subst. reflexivity. }
    rewrite Ep. destruct s1 as [k | i]; [ reflexivity | ].
    rewrite Hl. reflexivity.
Qed.

(* ===================================================================== *)
(** ** The graph left by loads that overlap, fail or are repeated *)
(* ===================================================================== *)

Lemma settles_after (l : list intent) :
  forall s i, settles s i -> settles (replay l s) i.
Proof.
  induction l as [| j l IH]; intros s i H; [ exact H | ].
  apply (IH (apply_intent j s)). apply settles_mono. exact H.
Qed.

Lemma replay_known_settles (l : list intent) (s : store) :
  known [] l -> Forall (settles (replay l s)) l.
Proof.
  intro Hk. apply (replay_settles l [] s (Forall_nil _) Hk).
Qed.

(** The nodes and the edges that a replay of well-ordered statements leaves:
    those of the store, and those of the statements. *)
Lemma replay_known_nodes (l : list intent) (s : store) (n : node) :
  known [] l ->
  (In n (nodes (replay l s)) <-> In n (nodes s) \/ In n (node_intents l)).
Proof.
  intro Hk. split; [ apply replay_nodes_from | ].
  intros [H | H]; [ apply replay_nodes; exact H | ].
  destruct n as [lb pr]. apply node_intents_in in H.
  pose proof (replay_known_settles l s Hk) as Hs.
  rewrite Forall_forall in Hs. apply (Hs _ H).
Qed.

Lemma replay_known_edges (l : list intent) (s : store) (e : edge) :
  known [] l ->
  (In e (edges (replay l s)) <->
   In e (edges s)
   \/ exists fl fp tl tp t,
        In (RelIntent fl fp tl tp t) l /\ e = ((fl, fp), t, (tl, tp))).
Proof.
  intro Hk. split; [ apply replay_edges_from | ].
  intros [H | [fl [fp [tl [tp [t [H ->]]]]]]]; [ apply replay_edges; exact H | ].
  pose proof (replay_known_settles l s Hk) as Hs.
  rewrite Forall_forall in Hs. apply (Hs _ H).
Qed.

(** Two well-ordered sequences with the same statements leave the same
    graph, whatever the order of the statements. *)
Lemma same_statements_same_graph (l1 l2 : list intent) (s : store) :
  known [] l1 -> known [] l2 ->
  (forall i, In i l1 <-> In i l2) ->
  same_graph (replay l1 s) (replay l2 s).
Proof.
  intros H1 H2 Hin. split.
  - intros [lb pr]. rewrite (replay_known_nodes l1 s _ H1).
    rewrite (replay_known_nodes l2 s _ H2).
    rewrite !node_intents_in, Hin. reflexivity.
  - intro e. rewrite (replay_known_edges l1 s _ H1).
    rewrite (replay_known_edges l2 s _ H2).
    split; intros [H | [fl [fp [tl [tp [t [H E]]]]]]];
      try (left; exact H);
      right; exists fl, fp, tl, tp, t; (split; [ apply Hin; exact H | exact E ]).
Qed.

Lemma Forall_replace_nth {A : Type} (P : A -> Prop) (l : list A) :
  forall i x, Forall P l -> P x -> Forall P (replace_nth i x l).
Proof.
  induction l as [| y l IH]; intros i x Hl Hx;
    [ destruct i; constructor | ].
  inversion Hl as [| ? ? Hy Htl]; subst.
  destruct i as [| i]; cbn [replace_nth]; constructor; auto.
Qed.

Lemma Forall_nth_error {A : Type} (P : A -> Prop) (l : list A) (i : nat)
    (x : A) :
  Forall P l -> nth_error l i = Some x -> P x.
Proof.
  intros Hl Hn. rewrite Forall_forall in Hl.
  apply Hl. apply (nth_error_In l i Hn).
Qed.

Lemma concat_taken {A : Type} (ls : list (list A)) :
  forall i x l,
    nth_error ls i = Some (x :: l) ->
    Permutation (List.concat ls) (x :: List.concat (replace_nth i l ls)).
Proof.
  induction ls as [| l0 ls IH]; intros i x l Hn.
  - destruct i; discriminate.
  - destruct i as [| i]; cbn [nth_error replace_nth List.concat] in *.
    + injection Hn as ->. reflexivity.
    + rewrite (IH i x l Hn). symmetry. apply Permutation_middle.
Qed.

Lemma concat_empty {A : Type} (ls : list (list A)) :
  Forall (fun l => l = []) ls -> List.concat ls = [].
Proof.
  induction 1 as [| l ls -> _ IH]; [ reflexivity | exact IH ].
Qed.

(** An interleaving holds the elements of the lists, each as often. *)
Lemma merges_concat {A : Type} (ls : list (list A)) (m : list A) :
  merges ls m -> Permutation m (List.concat ls).
Proof.
  induction 1 as [ls Hls | i x l ls m Hn _ IH].
  - rewrite (concat_empty ls Hls). constructor.
  - rewrite (concat_taken ls i x l Hn). constructor. exact IH.
Qed.

(** An interleaving of well-ordered sequences is well ordered. *)
Lemma merges_known (ls : list (list intent)) (m : list intent) :
  merges ls m ->
  forall seen,
    Forall (fun l => exists seen_l, incl seen_l seen /\ known seen_l l) ls ->
    known seen m.
Proof.
  induction 1 as [ls Hls | i x l ls m Hn _ IH]; intros seen Hall;
    [ exact I | ].
  destruct (Forall_nth_error _ ls i (x :: l) Hall Hn)
    as [seen_l [Hincl [Hx Hl]]].
  split; [ apply (ends_before_mono seen_l seen x Hincl Hx) | ].
  apply IH. apply Forall_replace_nth.
  - apply (Forall_impl _ (P := fun l0 =>
             exists seen_l0, incl seen_l0 seen /\ known seen_l0 l0));
      [ | exact Hall ].
    intros l0 [seen0 [Hi Hk]]. exists seen0. split; [ | exact Hk ].
    apply incl_appl. exact Hi.
  - exists (seen_l ++ [x]). split; [ | exact Hl ].
    apply incl_app; [ apply incl_appl; exact Hincl | ].
    apply incl_appr. apply incl_refl.
Qed.

Lemma known_concat (ls : list (list intent)) :
  Forall (known []) ls -> forall seen, known seen (List.concat ls).
Proof.
  induction 1 as [| l ls Hl _ IH]; intro seen; [ exact I | ].
  cbn [List.concat]. apply known_app; [ | apply IH ].
  apply (each_after_mono ends_before ends_before_mono l [] seen);
    [ intros x [] | exact Hl ].
Qed.

Lemma file_script_known (json_loads : string -> option json) (entry : fs_entry) :
  known [] (file_script json_loads entry).
Proof.
  destruct entry as [contents | bytes | entries]; [ | exact I | exact I ].
  unfold file_script. destruct (json_loads contents); [ | exact I ].
  apply known_emitted.
Qed.

(** X7.  The graph that [process_directory] leaves does not depend on the
    order in which the event loop takes the tasks forward: with a session
    that does not fail, for every schedule of [asyncio.gather] the store
    holds the same nodes and edges as after the statements of the selected
    documents, one document after the other in directory order. *)
Theorem schedule_does_not_matter (json_loads : string -> option json)
    (schedule : list nat) (data_directory : list (string * fs_entry))
    (s : store) :
  same_graph
    (db (snd (run (process_directory json_loads schedule data_directory
                                     process_json)
                  (world_of s []))))
    (replay (List.concat (map (fun f => file_script json_loads (snd f))
                         (glob data_directory "*.json")))
            s).
Proof.
  destruct (process_directory_results json_loads schedule data_directory
                                      (world_of s []))
    as [merged [Hrun Hm]].
  rewrite Hrun. cbn [snd]. rewrite db_submit_all by reflexivity.
  cbn [world_of db].
  assert (Hall : Forall (known [])
                   (map (fun f => file_script json_loads (snd f))
                        (glob data_directory "*.json"))).
  { apply Forall_forall. intros l Hl. apply in_map_iff in Hl.
    destruct Hl as [f [<- _]]. apply file_script_known. }
  apply same_statements_same_graph.
  - apply (merges_known _ _ Hm []).
    apply (Forall_impl _ (P := known [])); [ | exact Hall ].
    intros l Hl. exists []. split; [ apply incl_refl | exact Hl ].
  - apply known_concat. exact Hall.
  - intro i. pose proof (merges_concat _ _ Hm) as Hp. split; intro H.
    + apply (Permutation_in i Hp H).
    + apply (Permutation_in i (Permutation_sym Hp) H).
Qed.

(** X8.  Once the statements of a document have been applied, applying
    them again later changes nothing, whatever statements were applied to
    the store in between. *)
Theorem reload_changes_nothing (data : json) (between : list intent)
    (s : store) :
  replay (emitted data) (replay between (replay (emitted data) s))
  = replay between (replay (emitted data) s).
Proof.
  apply settles_replay.
  pose proof (replay_known_settles (emitted data) s (known_emitted data)) as H.
  apply (Forall_impl _ (P := settles (replay (emitted data) s)));
    [ | exact H ].
  intro i. apply settles_after.
Qed.

Lemma subgraph_refl (s : store) : subgraph s s.
Proof. split; apply incl_refl. Qed.

Lemma subgraph_apply (i : intent) (s1 s2 : store) :
  subgraph s1 s2 -> subgraph (apply_intent i s1) (apply_intent i s2).
Proof.
  intros [Hn He]. destruct i as [lb pr | fl fp tl tp t]; cbn [apply_intent].
  - split.
    + unfold merge_node at 1. destruct (has_node (lb, pr) s1).
      * intros n H. apply (apply_intent_nodes (NodeIntent lb pr)). auto.
      * cbn [nodes]. intros n H. apply in_app_or in H.
        destruct H as [H | [<- | []]].
        -- apply (apply_intent_nodes (NodeIntent lb pr)). auto.
        -- apply merge_node_in.
    + unfold merge_node at 1. destruct (has_node (lb, pr) s1);
        cbn [edges]; intros e H;
        apply (apply_intent_edges (NodeIntent lb pr)); auto.
  - split.
    + intros n H. apply (apply_intent_nodes (RelIntent fl fp tl tp t)).
      apply Hn. revert H. unfold merge_edge.
      destruct (has_node (fl, fp) s1 && has_node (tl, tp) s1);
        [ destruct (has_edge (fl, fp, t, (tl, tp)) s1) | ]; auto.
    + unfold merge_edge at 1.
      destruct (has_node (fl, fp) s1 && has_node (tl, tp) s1) eqn:Hends;
        [ destruct (has_edge (fl, fp, t, (tl, tp)) s1) | ];
        cbn [edges]; intros e H;
        try (apply (apply_intent_edges (RelIntent fl fp tl tp t)); auto; fail).
      apply in_app_or in H. destruct H as [H | [<- | []]];
        [ apply (apply_intent_edges (RelIntent fl fp tl tp t)); auto | ].
      apply andb_prop in Hends. destruct Hends as [Ha Hb].
      apply has_node_true in Ha. apply has_node_true in Hb.
      apply merge_edge_in; auto.
Qed.

Lemma subgraph_skip (i : intent) (s1 s2 : store) :
  subgraph s1 s2 -> subgraph s1 (apply_intent i s2).
Proof.
  intros [Hn He]. split; intros x H;
    [ apply apply_intent_nodes | apply apply_intent_edges ]; auto.
Qed.

Lemma subgraph_submit_all (l : list intent) :
  forall w s, subgraph (db w) s -> subgraph (db (submit_all l w)) (replay l s).
Proof.
  induction l as [| i l IH]; intros w s H; [ exact H | ].
  cbn [submit_all replay fold_left].
  apply (IH (submit w i) (apply_intent i s)).
  unfold submit. cbn [perform].
  destruct (faults w) as [| [|] fs]; cbn [snd db];
    [ apply subgraph_apply | apply subgraph_skip | apply subgraph_apply ];
    exact H.
Qed.

Lemma subgraph_replay (l : list intent) (s : store) : subgraph s (replay l s).
Proof.
  split; intros x H; [ apply replay_nodes | apply replay_edges ]; exact H.
Qed.

Lemma grows_submit_all (l : list intent) :
  forall w, subgraph (db w) (db (submit_all l w)).
Proof.
  induction l as [| i l IH]; intro w; [ apply subgraph_refl | ].
  cbn [submit_all fold_left]. destruct (IH (submit w i)) as [Hn He].
  split; intros x H; [ apply Hn, submit_nodes | apply He, submit_edges ];
    exact H.
Qed.

(** X9.  Writes that fail only take away: whatever writes the session
    rejects while a document is loaded, every node and edge of the store
    afterwards is one that the load would have left had no write failed. *)
Theorem failed_writes_only_lose (data : json) (w : world) :
  subgraph (db (snd (run (process_json data) w)))
           (replay (emitted data) (db w)).
Proof.
  rewrite run_process_json, emitted_walk. cbn [snd].
  apply subgraph_submit_all. apply subgraph_refl.
Qed.

(** X10.  A load that lost writes is repaired by loading the document
    again: after a load with any failures, a second load of the same
    document on a session that does not fail leaves the same nodes and
    edges as one load without failures from the start. *)
Theorem reload_repairs (data : json) (w : world) :
  let w1 := snd (run (process_json data) w) in
  same_graph
    (db (snd (run (process_json data) (world_of (db w1) []))))
    (db (snd (run (process_json data) (world_of (db w) [])))).
Proof.
  cbn zeta. rewrite !run_process_json, <- !emitted_walk. cbn [snd].
  rewrite (db_submit_all (emitted data) (world_of (db w) []) eq_refl).
  rewrite (db_submit_all (emitted data)
             (world_of (db (submit_all (emitted data) w)) []) eq_refl).
  cbn [world_of db].
  pose proof (known_emitted data) as Hk.
  destruct (grows_submit_all (emitted data) w) as [Hn1 He1].
  destruct (subgraph_submit_all (emitted data) w (db w) (subgraph_refl _))
    as [Hn2 He2].
  split.
  - intro n. rewrite (replay_known_nodes _ _ n Hk).
    split.
    + intros [H | H]; [ apply Hn2; exact H | ].
      apply (replay_known_nodes _ _ n Hk). right. exact H.
    + intro H. apply (replay_known_nodes _ _ n Hk) in H.
      destruct H as [H | H]; [ left; apply Hn1; exact H | right; exact H ].
  - intro e. rewrite (replay_known_edges _ _ e Hk).
    split.
    + intros [H | H]; [ apply He2; exact H | ].
      apply (replay_known_edges _ _ e Hk). right. exact H.
    + intro H. apply (replay_known_edges _ _ e Hk) in H.
      destruct H as [H | H]; [ left; apply He1; exact H | right; exact H ].
Qed.

(* ===================================================================== *)
(** ** The parameters of a relationship statement *)
(* ===================================================================== *)

Lemma from_to_differ (a : string) :
  forall b, append a "_from" <> append b "_to".
Proof.
  induction a as [| c a IH]; intros b E.
  - destruct b as [| c1 [| c2 [| c3 [| c4 b]]]]; try discriminate.
    simpl in E. injection E as _ _ _ _ E.
    destruct b as [| c5 [| c6 b]]; discriminate.
  - destruct b as [| d b].
    + simpl in E. injection E as _ E.
      destruct a as [| c1 [| c2 [| c3 a]]]; discriminate.
    + simpl in E. injection E as _ E. apply (IH b E).
Qed.

Lemma dict_set_fresh (key : string) (value : prim) (d : props) :
  ~ In key (map fst d) -> dict_set key value d = d ++ [(key, value)].
Proof.
  induction d as [| [k x] d IH]; intro H; [ reflexivity | ].
  cbn [dict_set app]. destruct (String.eqb_spec k key) as [-> | _].
  - exfalso. apply H. left. reflexivity.
  - rewrite IH; [ reflexivity | ]. intro Hin. apply H. right. exact Hin.
Qed.

Lemma dict_update_fresh (items : list (string * prim)) :
  forall d, NoDup (map fst (d ++ items)) -> dict_update d items = d ++ items.
Proof.
  induction items as [| [k x] items IH]; intros d H.
  - rewrite app_nil_r. reflexivity.
  - unfold dict_update. cbn [fold_left fst snd].
    assert (E : d ++ (k, x) :: items = (d ++ [(k, x)]) ++ items)
      by (rewrite <- app_assoc; reflexivity).
    rewrite dict_set_fresh.
    + rewrite E in H |- *. apply (IH _ H).
    + rewrite map_app in H. cbn [map fst] in H.
      apply NoDup_remove_2 in H. intro Hin. apply H.
      apply in_or_app. left. exact Hin.
Qed.

Lemma dict_get_in (d : props) (key : string) (value : prim) :
  NoDup (map fst d) -> In (key, value) d -> dict_get key d = Some value.
Proof.
  induction d as [| [k x] d IH]; intros Hnd Hin; [ contradiction | ].
  cbn [map fst] in Hnd. inversion Hnd as [| ? ? Hk Hd]; subst.
  cbn [dict_get]. destruct Hin as [E | Hin].
  - injection E as -> ->. rewrite String.eqb_refl. reflexivity.
  - destruct (String.eqb_spec k key) as [-> | _]; [ | apply IH; assumption ].
    exfalso. apply Hk. apply (in_map fst _ _ Hin).
Qed.

Lemma NoDup_suffixed (suffix : string) (d : props) :
  NoDup (map fst d) ->
  NoDup (map fst (map (fun kv => (append (fst kv) suffix, snd kv)) d)).
Proof.
  rewrite map_map. cbn [fst].
  rewrite <- (map_map fst (fun k => append k suffix)).
  apply Injective_map_NoDup. intros a b. apply append_inj_l.
Qed.

(** X11.  The parameters sent with a relationship statement: when each of
    the two property dictionaries has its keys once, every property of the
    start node is bound under its key followed by [_from] and every
    property of the end node under its key followed by [_to], with its own
    value; keys that the two nodes share (such as [name]) do not overwrite
    each other, and there is no other parameter. *)
Theorem relationship_params_bind (from_properties to_properties : props) :
  NoDup (map fst from_properties) ->
  NoDup (map fst to_properties) ->
  let params := relationship_params from_properties to_properties in
  (forall key value,
      In (key, value) from_properties ->
      dict_get (append key "_from") params = Some value)
  /\ (forall key value,
         In (key, value) to_properties ->
         dict_get (append key "_to") params = Some value)
  /\ List.length params
     = List.length from_properties + List.length to_properties.
Proof.
  intros Hf Ht. cbn zeta.
  set (fs := map (fun kv => (append (fst kv) "_from", snd kv)) from_properties).
  set (ts := map (fun kv => (append (fst kv) "_to", snd kv)) to_properties).
  assert (Hnd : NoDup (map fst (fs ++ ts))).
  { rewrite map_app. apply NoDup_app.
    - apply NoDup_suffixed. exact Hf.
    - apply NoDup_suffixed. exact Ht.
    - intros k H1 H2. unfold fs, ts in H1, H2. rewrite map_map in H1, H2.
      apply in_map_iff in H1. destruct H1 as [[a x] [<- _]].
      apply in_map_iff in H2. destruct H2 as [[b y] [E _]].
      cbn [fst] in E. symmetry in E. apply (from_to_differ a b E). }
  assert (E : relationship_params from_properties to_properties = fs ++ ts).
  { unfold relationship_params, dict_of. fold fs. fold ts.
    rewrite (dict_update_fresh fs []).
    - apply dict_update_fresh. exact Hnd.
    - cbn [app]. rewrite map_app in Hnd.
      apply NoDup_app_remove_r in Hnd. exact Hnd. }
  rewrite E. split; [ | split ].
  - intros key value Hin. apply (dict_get_in _ _ _ Hnd).
    apply in_or_app. left.
    apply (in_map (fun kv => (append (fst kv) "_from", snd kv)) _ _ Hin).
  - intros key value Hin. apply (dict_get_in _ _ _ Hnd).
    apply in_or_app. right.
    apply (in_map (fun kv => (append (fst kv) "_to", snd kv)) _ _ Hin).
  - unfold fs, ts. rewrite length_app, !length_map. reflexivity.
Qed.

Lemma relationship_params_bind_witness :
  let f := [("name", PStr "root")] in
  let t := [("name", PStr "a"); ("value", PInt 1)] in
  dict_get "name_from" (relationship_params f t) = Some (PStr "root")
  /\ dict_get "name_to" (relationship_params f t) = Some (PStr "a").
Proof.
  cbn zeta.
  assert (Hf : NoDup (map fst [("name", PStr "root")])).
  { cbn [map fst]. repeat constructor. intros []. }
  assert (Ht : NoDup (map fst [("name", PStr "a"); ("value", PInt 1)])).
  { cbn [map fst]. repeat constructor; cbn [In]; intuition discriminate. }
  destruct (relationship_params_bind _ _ Hf Ht) as [H1 [H2 _]].
  split.
  - apply (H1 "name" (PStr "root")). left. reflexivity.
  - apply (H2 "name" (PStr "a")). left. reflexivity.
Defined.

(* ===================================================================== *)
(** ** The projection when a call fails *)
(* ===================================================================== *)

Lemma other_names_kept (name n : string) (cat cat' : list string) :
  n <> name ->
  cat' = cat \/ cat' = remove string_dec name cat
  \/ cat' = name :: cat \/ cat' = name :: remove string_dec name cat ->
  (In n cat' <-> In n cat).
Proof.
  intros Hn [-> | [-> | [-> | ->]]]; [ reflexivity | | | ]; cbn [In].
  - split; [ intro H; apply (in_remove string_dec _ _ _ H) | ].
    intro H. apply in_in_remove; assumption.
  - split; [ intros [E | H]; [ congruence | exact H ] | auto ].
  - split.
    + intros [E | H]; [ congruence | apply (in_remove string_dec _ _ _ H) ].
    + intro H. right. apply in_in_remove; assumption.
Qed.

Ltac run_projection :=
  unfold project_graph_in_gds, await;
  cbn [bind future_safe try_except run perform faults ran catalog logged db
       written run_gds tl fst snd].

Ltac split_projection :=
  repeat match goal with
         | |- context [match ?fs with [] => _ | _ :: _ => _ end] =>
             destruct fs as [| [|] ?]
         | |- context [in_dec string_dec ?a ?b] =>
             destruct (in_dec string_dec a b)
         end;
  cbn [bind future_safe try_except run perform faults ran catalog logged db
       written run_gds tl fst snd].

(** X12.  The projection is replaced in two steps that are not undone: when
    the drop goes through and the creation then fails, the call returns the
    failure as a value, the line that reports success is not logged, and the
    name is in the catalog no longer, even if a projection of that name was
    there before the call. *)
Theorem failed_projection_leaves_none (name : string) (s : store)
    (cat : list string) (wr : list intent) (rn : list gds_call)
    (lg : list log_line) (fs : list bool) :
  let r := run (project_graph_in_gds name)
               (mkWorld s cat wr rn lg (false :: true :: fs)) in
  fst r = Returned (IOFailure Neo4jError)
  /\ ~ In name (catalog (snd r))
  /\ logged (snd r) = lg ++ [DroppedExisting name; Projecting name].
Proof.
  cbn zeta. run_projection.
  split; [ reflexivity | split; [ apply remove_not_in | ] ].
  rewrite <- app_assoc. reflexivity.
Qed.

(** X13.  [project_graph_in_gds] never raises and acts on the catalog
    only, and there on its own name only: whatever fails, it returns a
    value, the store and the statements submitted are as before, every
    other name is in the catalog afterwards exactly when it was before, and
    two calls on the session have been made. *)
Theorem projection_keeps_to_its_name (name : string) (w : world) :
  let r := run (project_graph_in_gds name) w in
  (exists res, fst r = Returned res)
  /\ db (snd r) = db w
  /\ written (snd r) = written w
  /\ (forall n, n <> name -> (In n (catalog (snd r)) <-> In n (catalog w)))
  /\ faults (snd r) = skipn 2 (faults w).
Proof.
  cbn zeta. destruct w as [s cat wr rn lg fs]. run_projection.
  destruct fs as [| [|] fs]; run_projection; split_projection;
    (split; [ eexists; reflexivity | ]);
    (split; [ reflexivity | ]);
    (split; [ reflexivity | ]);
    (split; [ | reflexivity ]);
    intros n0 Hn; apply (other_names_kept name n0 cat _ Hn); auto.
Qed.

(* ===================================================================== *)
(** ** Files and processors other than [process_json] *)
(* ===================================================================== *)

Lemma run_bind {A B : Type} (m : prog A) (f : A -> prog B) :
  forall w,
    run (bind m f) w
    = match fst (run m w) with
      | Returned a => run (f a) (snd (run m w))
      | Raised e => (Raised e, snd (run m w))
      end.
Proof.
  induction m as [a | e | c k IH]; intro w; [ reflexivity | reflexivity | ].
  cbn [bind run]. destruct (perform c w) as [r w']. apply IH.
Qed.

(** X14.  [process_file] with any processor: a path that cannot be opened,
    a file whose bytes are not text and a text that is not JSON give the
    failure as a value, without a call of the processor and without a call
    on the session; for a document that parses the processor is called once
    with it, what it returns comes back as a success, and what it raises is
    raised by [process_file]. *)
Theorem process_file_cases {B : Type} (json_loads : string -> option json)
    (file_path : string * fs_entry) (processor : json -> prog B) (w : world) :
  run (process_file json_loads file_path processor) w
  = match snd file_path with
    | Directory _ => (Returned (IOFailure OSError), w)
    | BinaryFile _ => (Returned (IOFailure UnicodeDecodeError), w)
    | RegularFile contents =>
        match json_loads contents with
        | None => (Returned (IOFailure JSONDecodeError), w)
        | Some data =>
            match fst (run (processor data) w) with
            | Returned b => (Returned (IOSuccess b), snd (run (processor data) w))
            | Raised e => (Raised e, snd (run (processor data) w))
            end
        end
    end.
Proof.
  destruct file_path as [name [contents | bytes | entries]];
    unfold process_file, bind_awaitable, json_parsing_pipeline, bind_result,
           read_file, parse_json, await;
    cbn [snd bind future_safe run perform]; [ | reflexivity | reflexivity ].
  destruct (json_loads contents) as [data | ];
    cbn [bind run]; [ | reflexivity ].
  rewrite !run_bind.
  destruct (run (processor data) w) as [[b | e] w']; reflexivity.
Qed.

Lemma never_but_future_safe {A : Type} (e : exn) (body : prog A) :
  never_but e (future_safe body).
Proof.
  induction body as [a | e' | c k IH]; cbn [future_safe];
    [ constructor | constructor | ].
  apply never_but_await. exact IH.
Qed.

Lemma never_but_bind {A B : Type} (e : exn) (m : prog A) (f : A -> prog B) :
  never_but e m -> (forall a, never_but e (f a)) -> never_but e (bind m f).
Proof.
  intros Hm Hf. induction Hm as [a | | k _ IH | c k _ IH]; cbn [bind].
  - apply Hf.
  - constructor.
  - apply never_but_read. exact IH.
  - apply never_but_await. exact IH.
Qed.

Lemma dooms_bind {A B : Type} (e : exn) (m : prog A) (f : A -> prog B) :
  dooms e m -> dooms e (bind m f).
Proof.
  intro Hm. induction Hm as [ | k _ IH | c k _ IH]; cbn [bind].
  - constructor.
  - apply dooms_read. exact IH.
  - apply dooms_await. exact IH.
Qed.

Lemma dooms_after {A B : Type} (e : exn) (m : prog A) (f : A -> prog B) :
  never_but e m -> (forall a, dooms e (f a)) -> dooms e (bind m f).
Proof.
  intros Hm Hf. induction Hm as [a | | k _ IH | c k _ IH]; cbn [bind].
  - apply Hf.
  - constructor.
  - apply dooms_read. exact IH.
  - apply dooms_await. exact IH.
Qed.

Lemma dooms_run {A : Type} (e : exn) (t : prog A) :
  dooms e t -> forall w, fst (run t w) = Raised e.
Proof.
  intro Ht. induction Ht as [ | k _ IH | c k _ IH]; intro w.
  - reflexivity.
  - apply IH.
  - cbn [run]. destruct (perform c w) as [r w']. apply IH.
Qed.

Lemma never_but_next {A : Type} (e : exn) (c : call)
    (k : outcome unit -> prog A) :
  never_but e (Await c k) -> never_but e (k (Returned tt)).
Proof. intro H. inversion H; subst; auto. Qed.

Lemma dooms_next {A : Type} (e : exn) (c : call) (k : outcome unit -> prog A) :
  dooms e (Await c k) -> dooms e (k (Returned tt)).
Proof. intro H. inversion H; subst; auto. Qed.

Lemma never_but_any {A : Type} (e : exn) (c : call)
    (k : outcome unit -> prog A) :
  c <> FileRead -> never_but e (Await c k) -> forall r, never_but e (k r).
Proof. intros Hc H. inversion H; subst; [ congruence | auto ]. Qed.

Lemma dooms_any {A : Type} (e : exn) (c : call) (k : outcome unit -> prog A) :
  c <> FileRead -> dooms e (Await c k) -> forall r, dooms e (k r).
Proof. intros Hc H. inversion H; subst; [ congruence | auto ]. Qed.

Lemma Exists_replace_nth {A : Type} (P : A -> Prop) (l : list A) :
  forall i x y,
    nth_error l i = Some y -> (P y -> P x) -> Exists P l ->
    Exists P (replace_nth i x l).
Proof.
  induction l as [| z l IH]; intros i x y Hn Hxy Hex;
    [ inversion Hex | ].
  destruct i as [| i]; cbn [replace_nth nth_error] in *.
  - injection Hn as ->.
    inversion Hex; subst; [ left; auto | right; assumption ].
  - inversion Hex; subst; [ left; assumption | right ].
    apply (IH i x y Hn Hxy). assumption.
Qed.

Lemma in_turn_dooms {A : Type} (e : exn) (tasks : list (prog A)) :
  Forall (never_but e) tasks -> Exists (dooms e) tasks ->
  dooms e (in_turn tasks).
Proof.
  intro Hall. induction Hall as [| t tasks Ht _ IH]; intro Hex;
    [ inversion Hex | ].
  cbn [in_turn]. inversion Hex as [? ? Hd | ? ? Hd]; subst.
  - apply dooms_bind. exact Hd.
  - apply dooms_after; [ exact Ht | ].
    intro a. apply dooms_bind. apply IH. exact Hd.
Qed.

Lemma gather_dooms {A : Type} (e : exn) (schedule : list nat) :
  forall tasks : list (prog A),
    Forall (never_but e) tasks -> Exists (dooms e) tasks ->
    dooms e (gather schedule tasks).
Proof.
  induction schedule as [| i schedule IH]; intros tasks Hall Hex.
  - apply in_turn_dooms; assumption.
  - cbn [gather]. destruct (nth_error tasks i) as [[a | e' | c k] | ] eqn:Hn;
      try (apply IH; assumption).
    pose proof (Forall_nth_error _ tasks i _ Hall Hn) as Hk.
    assert (Hc : {c = FileRead} + {c <> FileRead})
      by (destruct c; (left; reflexivity) || (right; discriminate)).
    destruct Hc as [-> | Hc].
    + apply dooms_read. apply IH.
      * apply Forall_replace_nth;
          [ exact Hall | apply (never_but_next e FileRead k Hk) ].
      * apply (Exists_replace_nth _ tasks i _ (Await FileRead k) Hn);
          [ apply dooms_next | exact Hex ].
    + apply dooms_await. intro r. apply IH.
      * apply Forall_replace_nth;
          [ exact Hall | apply (never_but_any e c k Hc Hk) ].
      * apply (Exists_replace_nth _ tasks i _ (Await c k) Hn);
          [ intro Hd; apply (dooms_any e c k Hc Hd) | exact Hex ].
Qed.

Lemma behaves_then_never_but {A B : Type} (e : exn) (P : A -> Prop)
    (l : list intent) (m : prog A) (f : A -> prog B) :
  behaves P l m -> l = [] ->
  (forall a, never_but e (f a)) -> never_but e (bind m f).
Proof.
  intros Hm El Hf. induction Hm as [a _ | i l k _ _ | l k _ IH]; cbn [bind].
  - apply Hf.
  - discriminate.
  - apply never_but_read. apply IH. exact El.
Qed.

Lemma behaves_then_dooms {A B : Type} (e : exn) (a : A)
    (l : list intent) (m : prog A) (f : A -> prog B) :
  behaves (eq a) l m -> l = [] -> dooms e (f a) -> dooms e (bind m f).
Proof.
  intros Hm El Hf. induction Hm as [a' <- | i l k _ _ | l k _ IH]; cbn [bind].
  - exact Hf.
  - discriminate.
  - apply dooms_read. apply IH. exact El.
Qed.

Lemma process_file_never_but {B : Type} (e : exn)
    (json_loads : string -> option json) (file_path : string * fs_entry)
    (processor : json -> prog B) :
  (forall data, never_but e (processor data)) ->
  never_but e (process_file json_loads file_path processor).
Proof.
  intro Hp. unfold process_file, bind_awaitable.
  apply never_but_bind; [ | intro a; constructor ].
  apply (behaves_then_never_but e _ []
           (json_parsing_pipeline json_loads file_path) _
           (json_parsing_pipeline_behaves json_loads file_path) eq_refl).
  intros [data | e']; [ | constructor ].
  apply never_but_bind; [ apply Hp | intro b; constructor ].
Qed.

Lemma process_file_dooms {B : Type} (e : exn)
    (json_loads : string -> option json) (name contents : string)
    (data : json) (processor : json -> prog B) :
  json_loads contents = Some data ->
  dooms e (processor data) ->
  dooms e (process_file json_loads (name, RegularFile contents) processor).
Proof.
  intros Hj Hp. unfold process_file, bind_awaitable.
  apply dooms_bind.
  pose proof (json_parsing_pipeline_behaves json_loads
                (name, RegularFile contents)) as Hb.
  cbn [snd] in Hb. rewrite Hj in Hb.
  apply (behaves_then_dooms e (IOSuccess data) [] _ _ Hb eq_refl).
  apply dooms_bind. exact Hp.
Qed.

(** X15.  A processor that raises loses the whole batch: when the
    processor can raise no other exception than [e], and one of the selected
    files parses to a document on which the processor raises [e], then
    [process_directory] raises [e], for every schedule of the tasks;
    no list of results is returned, also not for the files that went
    through. *)
Theorem raising_processor_loses_batch {B : Type}
    (json_loads : string -> option json) (schedule : list nat)
    (data_directory : list (string * fs_entry)) (processor : json -> prog B)
    (e : exn) (name contents : string) (data : json) (w : world) :
  (forall d, never_but e (processor d)) ->
  In (name, RegularFile contents) (glob data_directory "*.json") ->
  json_loads contents = Some data ->
  dooms e (processor data) ->
  fst (run (process_directory json_loads schedule data_directory processor) w)
  = Raised e.
Proof.
  intros Hall Hin Hj Hd. apply dooms_run.
  unfold process_directory. apply dooms_bind. apply gather_dooms.
  - apply Forall_forall. intros t Ht. apply in_map_iff in Ht.
    destruct Ht as [f [<- _]]. apply process_file_never_but. exact Hall.
  - apply Exists_exists.
    exists (process_file json_loads (name, RegularFile contents) processor).
    split.
    + apply (in_map (fun f => process_file json_loads f processor) _ _ Hin).
    + apply (process_file_dooms e json_loads name contents data processor Hj Hd).
Qed.

Lemma raising_processor_loses_batch_witness :
  fst (run (process_directory (fun _ => Some (JPrim PNone)) [1; 0]
             [("a.json", RegularFile "null"); ("b.json", RegularFile "null")]
             (fun d : json => Raise OSError : prog unit)
           ) (world_of empty_store []))
  = Raised OSError.
Proof.
  apply (raising_processor_loses_batch (fun _ => Some (JPrim PNone)) [1; 0]
           [("a.json", RegularFile "null"); ("b.json", RegularFile "null")]
           (fun d : json => Raise OSError : prog unit)
           OSError "a.json" "null" (JPrim PNone)).
  - intro d. constructor.
  - left. reflexivity.
  - reflexivity.
  - constructor.
Defined.
